(** * The scope extension: component resolution over a legacy scope

    A shallow embedding of [src/extensions/scope/scope.extension.ts]
    (class [ScopeExtension]): [get], [getMany], [getOrThrow], [list],
    [exists], [loadExtensions] and the private helpers they call.
    Asynchronous methods become computations in a small state-and-exception
    monad whose state records, in order, every call made to a collaborator
    (the legacy scope and its object store, the isolator, the extension
    loader) and the allocator of JavaScript object identities.  Collaborators
    that live outside the file are taken as records of operations; the store
    is only read. *)

From Stdlib Require Import Ascii.
From stdpp Require Import base option list strings gmap.

Set Warnings "-register-all".

Local Open Scope string_scope.
Local Open Scope list_scope.
Local Open Scope Z_scope.

(** ** JavaScript truthiness *)
Module Js.

(** [!!s] for a value of type [string | null | undefined]. *)
Definition truthy_str (s : option string) : bool :=
  match s with
  | None => false
  | Some s => negb (String.eqb s "")
  end.

(** [!!n] for an integral number: only [0] is falsy. *)
Definition truthy_num (n : Z) : bool := negb (n =? 0).

(** [a || d] where [a : string | undefined] and [d] is a string literal. *)
Definition or_else (a : option string) (d : string) : string :=
  match a with
  | Some s => if truthy_str a then s else d
  | None => d
  end.

End Js.

(** ** The two lodash helpers the file imports *)
Module Lodash.

(** [compact(array)]: drops the falsy entries.  The arrays of this file hold
    objects or [null]/[undefined]; an object is always truthy. *)
Definition compact {A} (array : list (option A)) : list A := omap id array.

(** [baseSlice(array, start, end)].  The two [>>> 0] of the implementation
    are the identity on the values that reach them, the length of a
    JavaScript array being below [2^32]. *)
Definition baseSlice {A} (array : list A) (start end_ : Z) : list A :=
  let length := Z.of_nat (length array) in
  let start :=
    if start <? 0 then (if - start >? length then 0 else length + start)
    else start in
  let end_ := if end_ >? length then length else end_ in
  let end_ := if end_ <? 0 then end_ + length else end_ in
  let length := if start >? end_ then 0 else end_ - start in
  take (Z.to_nat length) (drop (Z.to_nat start) array).

(** [slice(array, start, end)] with both bounds given as integers. *)
Definition slice {A} (array : list A) (start end_ : Z) : list A :=
  match array with
  | [] => []
  | _ => baseSlice array start end_
  end.

End Lodash.

(** ** Identifiers *)

(** Modelled from the spec: [BitId] (imported from [bit-id]) is a name with an
    optional scope and an optional version. *)
Record BitId := mkBitId {
  bid_scope : option string;
  bid_name : string;
  bid_version : option string;
}.

Global Instance BitId_eq_dec : EqDecision BitId.
Proof. solve_decision. Defined.

(** Modelled from the spec: [BitId.changeScope] rebinds the identifier to
    another scope and keeps the rest. *)
Definition BitId_changeScope (id : BitId) (newScope : string) : BitId :=
  {| bid_scope := Some newScope;
     bid_name := bid_name id;
     bid_version := bid_version id |}.

(** Modelled from the spec: [ComponentID] is the structured identifier around
    a legacy [BitId]; [ComponentID.fromLegacy] is its constructor. *)
Record ComponentID := fromLegacy { _legacy : BitId }.

Global Instance ComponentID_eq_dec : EqDecision ComponentID.
Proof. solve_decision. Defined.

(** The [scope] getter of a [ComponentID]. *)
Definition id_scope (id : ComponentID) : option string := bid_scope (_legacy id).

Definition changeScope (id : ComponentID) (scopeName : string) : ComponentID :=
  fromLegacy (BitId_changeScope (_legacy id) scopeName).

(** ** Exceptions and results *)

Inductive Error :=
| ComponentNotFound (id : ComponentID)
| TypeError (msg : string)
| VersionNotFound (version : string)
| CollaboratorError (msg : string).

Inductive Result (A : Type) :=
| Returned (a : A)
| Thrown (e : Error).
Arguments Returned {A} a.
Arguments Thrown {A} e.

(** ** Persisted records *)

(** Modelled from the spec: a [Ref] is the hash of a stored object. *)
Record Ref := mkRef { ref_hash : string }.

Global Instance Ref_eq_dec : EqDecision Ref.
Proof. solve_decision. Defined.

(** Modelled from the spec: the log of a version, with the author's name and
    address, the message and the date as an epoch string; the author fields
    and the message may be missing. *)
Record Log := mkLog {
  message : option string;
  date : string;
  username : option string;
  email : option string;
}.

(** Modelled from the spec: a [ModelComponent] has an owning scope, a name, the
    mapping from version strings to [Ref]s and a pointer to the latest
    version (the method [latest()]). *)
Record ModelComponent := mkModelComponent {
  mc_scope : option string;
  mc_name : string;
  versions : gmap string Ref;
  latest : string;
}.

(** Modelled from the spec: [toBitIdWithLatestVersion] names the component at
    its latest version. *)
Definition toBitIdWithLatestVersion (c : ModelComponent) : BitId :=
  {| bid_scope := mc_scope c; bid_name := mc_name c; bid_version := Some (latest c) |}.

(** [Object.keys(modelComponent.versions)].  The keys are enumerated in the
    order of the finite map, which need not be the insertion order of the
    JavaScript object; nothing below depends on that order. *)
Definition Object_keys {V} (o : gmap string V) : list string := (map_to_list o).*1.

(** ** Snaps, tags and the tag map *)

(** A JavaScript [Date]: [None] is the invalid date. *)
Definition Date := option Z.

(** [new Date(n)] clips the time value to the range of valid dates. *)
Definition new_Date (n : option Z) : Date :=
  match n with
| Some t => if Z.abs t <=? 8640000000000000 then Some t else None
| None => None
  end.

Record Author := mkAuthor { displayName : string; author_email : string }.

(** Modelled from the spec: a [Snap] is a hash, a date, its parent snaps, an
    author and a message; [new Snap(hash, timestamp, parents, author,
    message)] stores its arguments. *)
Inductive Snap := mkSnap {
  snap_hash : string;
  timestamp : Date;
  parents : list Snap;
  author : Author;
  snap_message : option string;
}.

(** A [SemVer] object of the [semver] library: [new SemVer(raw)] allocates a
    fresh object, so two objects built from the same string are still two
    keys of a [Map]; what else the object holds is computed from [raw]. *)
Record SemVer := mkSemVer { oid : nat; raw : string }.

(** Modelled from the spec: a [Tag] is a snap paired with a semantic
    version. *)
Record Tag := mkTag { tag_snap : Snap; tag_version : SemVer }.

(** Modelled from the spec: a [TagMap] is a mapping from semantic version to
    tag.  The file fills it with [set], as a JavaScript [Map]: entries in
    insertion order, object keys compared by identity. *)
Definition TagMap := list (SemVer * Tag).

Fixpoint TagMap_set (key : SemVer) (value : Tag) (m : TagMap) : TagMap :=
  match m with
| [] => [(key, value)]
| (k, v) :: m' =>
      if decide (oid k = oid key) then (k, value) :: m'
      else (k, v) :: TagMap_set key value m'
  end.

(** ** Components, the collaborators and the monad *)
Section Model.

(** What the file only passes through: the extension data and the files of
    a consumer component, the dependencies of a version, and the capsules
    of the isolator. *)
Context {Extensions Vinyl Dependencies Capsule : Type}.

(** Modelled from the spec: the persisted [Version] record has a main file,
    its dependencies, a log and its own content hash, which [hash()]
    returns. *)
Record Version := mkVersion {
  mainFile : string;
  dependencies : Dependencies;
  log : Log;
  version_hash : Ref;
}.

(** Modelled from the spec: the consumer-level component record, with the
    two fields the file reads. *)
Record ConsumerComponent := mkConsumerComponent {
  extensions : Extensions;
  files : list Vinyl;
}.

(** Modelled from the spec: [new Config(mainFile, extensions)], the main file
    path with the extension data. *)
Record Config := mkConfig { main : string; config_extensions : Extensions }.

(** Modelled from the spec: [ComponentFS.fromVinyls(files)], the file-system
    snapshot made of the files. *)
Record ComponentFS := fromVinyls { vinyls : list Vinyl }.

(** Modelled from the spec: [new State(config, filesystem, dependencies,
    consumerComponent)]. *)
Record State := mkState {
  config : Config;
  filesystem : ComponentFS;
  state_dependencies : Dependencies;
  _consumer : ConsumerComponent;
}.

(** Modelled from the spec: [new Component(id, head, state, tags, host)]; the
    host is the scope extension itself, named here by its scope name. *)
Record Component := mkComponent {
  component_id : ComponentID;
  head : Snap;
  state : State;
  tags : TagMap;
  host : string;
}.

(** Modelled from the spec: [RequireableComponent.fromCapsule(capsule)], the
    requireable handle around a capsule. *)
Record RequireableComponent := fromCapsule { capsule : Capsule }.

(** Modelled from the spec: [ExtensionDataList], the set of extension
    identifiers [loadExtensions] reads through [extensionsBitIds]. *)
Record ExtensionDataList := mkExtensionDataList { extensionsBitIds : list BitId }.

(** The optional argument of [list]. *)
Record Filter := mkFilter { offset : Z; limit : Z }.

(** Calls to collaborators, in the order in which they are made. *)
Inductive Event :=
| GetModelComponentIfExist (id : BitId)
| ListModelComponents
| LoadObject (ref : Ref)
| GetConsumerComponent (id : BitId)
| IsolateComponents (components : list Component)
| LoadRequireableExtensions (requireables : list RequireableComponent).

Record World := mkWorld {
  events : list Event;
  next_oid : nat;
}.

(** The legacy scope (with its object store), read only.  The shapes follow
    the interface section of the specification: a lookup by identifier and
    a load by hash answer a record or nothing, the consumer component is
    produced or the call fails. *)
Record LegacyScope := mkLegacyScope {
  name : string;
  path : string;
  scope_getModelComponentIfExist : BitId -> option ModelComponent;
  scope_list : list ModelComponent;
  objects : Ref -> option Version;
  scope_getConsumerComponent : BitId -> Result ConsumerComponent;
}.

(** The rest of what the scope extension is constructed with or imports:
    the isolator, the extension loader, the library predicate deciding
    whether [new SemVer(s)] accepts [s], [parseInt], and the order in which
    the concurrent loads of a [Promise.all] complete (any permutation of
    the order in which they were started). *)
Record Runtime := mkRuntime {
  isolator_isolateComponents : list Component -> Result (list Capsule);
  harmony_loadRequireableExtensions : list RequireableComponent -> Result unit;
  semver_valid : string -> bool;
  parseInt : string -> option Z;
  completion : forall A : Type, list A -> list A;
  completion_perm : forall (A : Type) (l : list A), completion A l ≡ₚ l;
}.

Definition M (A : Type) : Type := World -> Result A * World.

Definition ret {A} (a : A) : M A := fun w => (Returned a, w).

Definition throw {A} (e : Error) : M A := fun w => (Thrown e, w).

Definition bind {A B} (c : M A) (k : A -> M B) : M B :=
  fun w =>
    match c w with
    | (Returned a, w') => k a w'
    | (Thrown e, w') => (Thrown e, w')
    end.

(** The world after one more call to a collaborator. *)
Definition record (e : Event) (w : World) : World :=
  {| events := events w ++ [e]; next_oid := next_oid w |}.

(** Records a call to a collaborator. *)
Definition emit (e : Event) : M unit := fun w => (Returned tt, record e w).

(** Allocates the identity of a new object. *)
Definition fresh : M nat :=
  fun w => (Returned (next_oid w), {| events := events w; next_oid := S (next_oid w) |}).

(** Lifts the answer of a collaborator. *)
Definition lift {A} (r : Result A) : M A := fun w => (r, w).

(** A computation extends the trace: whatever its outcome, the calls made
    before it are still there, in order, followed by its own. *)
Definition extends {A} (c : M A) : Prop :=
  forall w r w', c w = (r, w') -> events w `prefix_of` events w'.

End Model.

Declare Scope scope_monad.
Delimit Scope scope_monad with M.
Notation "'let*' x ':=' c 'in' k" := (bind c (fun x => k))
  (at level 10, x name, c at level 100, k at level 200) : scope_monad.
Notation "c ';;' k" := (bind c (fun _ => k))
  (at level 100, k at level 200, right associativity) : scope_monad.

(** [BluebirdPromise.mapSeries(array, f)]: runs [f] on the elements one after
    the other, each call starting when the previous one has settled; the first
    rejection stops the iteration. *)
Fixpoint mapSeries {E V D C A B} (f : A -> @M E V D C B) (array : list A)
  : @M E V D C (list B) :=
  match array with
  | [] => ret []
  | a :: rest =>
      (let* b := f a in
       let* bs := mapSeries f rest in
       ret (b :: bs))%M
  end.

(** The synchronous part of the callbacks of a [Promise.all(array.map(f))]:
    every call is started, in the order of the array.  The only call made
    there, [loadVersion] on a key of the version mapping, does not throw, so
    every callback reaches its [await]. *)
Definition startAll {E V D C A B} (f : A -> @M E V D C B) (array : list A)
  : @M E V D C (list B) := mapSeries f array.

(** The continuations of the callbacks of a [Promise.all], run in the order
    in which they are given, threading the object they all update. *)
Fixpoint settleAll {E V D C A S} (k : S -> A -> @M E V D C S) (pending : list A) (s : S)
  : @M E V D C S :=
  match pending with
  | [] => ret s
  | a :: rest => (let* s' := k s a in settleAll k rest s')%M
  end.

(** ** The scope extension *)
Section ScopeExtension.

Context {Extensions Vinyl Dependencies Capsule : Type}.

(** [this.legacyScope]; [this.isolator], [this.harmony] and the imported
    libraries. *)
Context (legacyScope : @LegacyScope Extensions Vinyl Dependencies)
        (runtime : @Runtime Extensions Vinyl Dependencies Capsule).

Local Abbreviation M := (@M Extensions Vinyl Dependencies Capsule).
Local Abbreviation Component := (@Component Extensions Vinyl Dependencies).
Local Abbreviation Version := (@Version Dependencies).
Local Abbreviation State := (@State Extensions Vinyl Dependencies).

(** [this.name]: the name of the legacy scope. *)
Definition this_name : string := name legacyScope.

(** [this.legacyScope.getModelComponentIfExist(id)]. *)
Definition getModelComponentIfExist (id : BitId) : M (option ModelComponent) :=
  (emit (GetModelComponentIfExist id);;
   ret (scope_getModelComponentIfExist legacyScope id))%M.

(** [this.legacyScope.list()]. *)
Definition legacyScope_list : M (list ModelComponent) :=
  (emit ListModelComponents;; ret (scope_list legacyScope))%M.

(** [this.legacyScope.getConsumerComponent(id)]. *)
Definition getConsumerComponent (id : BitId) : M ConsumerComponent :=
  (emit (GetConsumerComponent id);;
   lift (scope_getConsumerComponent legacyScope id))%M.

(** Modelled from the spec: [modelComponent.loadVersion(version, objects)]
    resolves the version string through the version mapping and loads the
    record of that [Ref] from the object store, which answers the record or
    nothing.  A version string that is not a key has no [Ref] to load. *)
Definition loadVersion (modelComponent : ModelComponent) (version : string)
  : M (option Version) :=
  match versions modelComponent !! version with
  | None => throw (VersionNotFound version)
  | Some ref => (emit (LoadObject ref);; ret (objects legacyScope ref))%M
  end.

(** [new SemVer(versionStr)]: throws on a string that is not a semantic
    version, and allocates a new object otherwise. *)
Definition new_SemVer (versionStr : string) : M SemVer :=
  if semver_valid runtime versionStr then
    (let* o := fresh in ret {| oid := o; raw := versionStr |})%M
  else throw (TypeError ("Invalid Version: " +:+ versionStr)).

(** [createSnapFromVersion(version)]. *)
Definition createSnapFromVersion (version : Version) : Snap :=
  mkSnap
    (ref_hash (version_hash version))
    (new_Date (parseInt runtime (date (log version))))
    []
    {| displayName := Js.or_else (username (log version)) "unknown";
       author_email := Js.or_else (email (log version)) "unknown@anywhere" |}
    (message (log version)).

(** [createStateFromVersion(id, version)]. *)
Definition createStateFromVersion (id : ComponentID) (version : Version) : M State :=
  (let* consumerComponent := getConsumerComponent (_legacy id) in
   ret (mkState
          (mkConfig (mainFile version) (extensions consumerComponent))
          (fromVinyls (files consumerComponent))
          (dependencies version)
          consumerComponent))%M.

(** The continuation of one callback of [getTagMap], after its
    [loadVersion] has settled. *)
Definition addTag (tagMap : TagMap) (loaded : string * option Version) : M TagMap :=
  let versionStr := loaded.1 in
  match loaded.2 with
  | Some version =>
      let snap := createSnapFromVersion version in
      (let* semver := new_SemVer versionStr in
       let tag := mkTag snap semver in
       ret (TagMap_set (tag_version tag) tag tagMap))%M
  | None => ret tagMap
  end.

(** [getTagMap(modelComponent)].  The callbacks of the [Promise.all] each
    start their load when [map] calls them, in the order of the keys; what
    follows the [await] runs in the order in which the loads complete.  The
    first rejection in that order is what [Promise.all] rejects with; what
    callbacks that settle later do to the abandoned map is not observed. *)
Definition getTagMap (modelComponent : ModelComponent) : M TagMap :=
  (let* loaded :=
     startAll
       (fun versionStr =>
          let* version := loadVersion modelComponent versionStr in
          ret (versionStr, version))
       (Object_keys (versions modelComponent)) in
   settleAll addTag (completion runtime _ loaded) [])%M.

(** [get(id)].  The pair [found] holds the parameter [id], which the
    fallback reassigns, with the model component.  [createSnapFromVersion]
    dereferences the version it is given, so a latest version whose record
    the store does not load raises a [TypeError] there. *)
Definition get (id : ComponentID) : M (option Component) :=
  (let* modelComponent := getModelComponentIfExist (_legacy id) in
   let* found :=
     (if negb (bool_decide (is_Some modelComponent)) && negb (Js.truthy_str (id_scope id))
      then
        let id := changeScope id this_name in
        let* modelComponent := getModelComponentIfExist (_legacy id) in
        ret (id, modelComponent)
      else ret (id, modelComponent)) in
   let id := found.1 in
   match found.2 with
   | None => ret None
   | Some modelComponent =>
       let latest := latest modelComponent in
       let* version := loadVersion modelComponent latest in
       match version with
       | None => throw (TypeError "Cannot read property 'hash' of null")
       | Some version =>
           let snap := createSnapFromVersion version in
           let* state := createStateFromVersion id version in
           let* tagMap := getTagMap modelComponent in
           ret (Some (mkComponent id snap state tagMap this_name))
       end
   end)%M.

(** [exists(modelComponent)]. *)
Definition exists_ (modelComponent : ModelComponent) : bool :=
  bool_decide (mc_scope modelComponent = Some this_name).

(** [getMany(ids)]. *)
Definition getMany (ids : list (option ComponentID)) : M (list Component) :=
  let idsWithoutEmpty := Lodash.compact ids in
  (let* components := mapSeries get idsWithoutEmpty in
   ret (Lodash.compact components))%M.

(** [list(filter, includeCache)]. *)
Definition list_ (filter : option Filter) (includeCache : bool) : M (list Component) :=
  (let* modelComponents := legacyScope_list in
   let modelComponents :=
     if negb includeCache then List.filter exists_ modelComponents
     else modelComponents in
   let componentsIds :=
     map (fun component => fromLegacy (toBitIdWithLatestVersion component))
         modelComponents in
   getMany
     (Some <$>
        match filter with
        | Some filter =>
            if Js.truthy_num (limit filter)
            then Lodash.slice componentsIds (offset filter) (offset filter + limit filter)
            else componentsIds
        | None => componentsIds
        end))%M.

(** [getOrThrow(id)]. *)
Definition getOrThrow (id : ComponentID) : M Component :=
  (let* component := get id in
   match component with
   | None => throw (ComponentNotFound id)
   | Some component => ret component
   end)%M.

(** [this.isolator.isolateComponents(components, {})]. *)
Definition isolateComponents (components : list Component) : M (list Capsule) :=
  (emit (IsolateComponents components);;
   lift (isolator_isolateComponents runtime components))%M.

(** [loadRequireableExtensions(this.harmony, requireables, this.logger, true)]. *)
Definition loadRequireableExtensions (requireables : list RequireableComponent) : M unit :=
  (emit (LoadRequireableExtensions requireables);;
   lift (harmony_loadRequireableExtensions runtime requireables))%M.

(** [loadExtensions(extensions)]. *)
Definition loadExtensions (extensions : ExtensionDataList) : M unit :=
  let ids := map fromLegacy (extensionsBitIds extensions) in
  match ids with
  | [] => ret tt
  | _ =>
      (let* components := getMany (Some <$> ids) in
       let* capsules := isolateComponents components in
       let requireableExtensions := map fromCapsule capsules in
       loadRequireableExtensions requireableExtensions)%M
  end.

(** *** Names used by the statements *)

(** What [get] does with the model component it has found, under the
    identifier it has found it with. *)
Definition assemble (id : ComponentID) (modelComponent : ModelComponent)
  : M (option Component) :=
  (let* version := loadVersion modelComponent (latest modelComponent) in
   match version with
   | None => throw (TypeError "Cannot read property 'hash' of null")
   | Some version =>
       let* state := createStateFromVersion id version in
       let* tagMap := getTagMap modelComponent in
       ret (Some (mkComponent id (createSnapFromVersion version) state tagMap this_name))
   end)%M.

(** The model components [list] keeps. *)
Definition listed (includeCache : bool) : list ModelComponent :=
  if includeCache then scope_list legacyScope
  else List.filter exists_ (scope_list legacyScope).

(** The identifier [list] gives to a model component. *)
Definition idOf (component : ModelComponent) : ComponentID :=
  fromLegacy (toBitIdWithLatestVersion component).

(** The full ordered listing: the identifiers [list] has before it
    paginates. *)
Definition listing (includeCache : bool) : list ComponentID :=
  map idOf (listed includeCache).

(** The versions of a model component whose record the object store loads. *)
Definition loadable (modelComponent : ModelComponent) : gmap string Ref :=
  filter (fun entry => is_Some (objects legacyScope entry.2)) (versions modelComponent).

(** The version strings whose load answered a record. *)
Definition loaded_keys (l : list (string * option Version)) : list string :=
  omap (fun loaded => match loaded.2 with Some _ => Some loaded.1 | None => None end) l.

(** [Resolved w ids rs w']: starting in [w], [get] called on the identifiers
    of [ids] one after the other, each call in the world the previous one
    left, answers [rs] and leaves [w']. *)
Inductive Resolved : World -> list ComponentID -> list (option Component) -> World -> Prop :=
| Resolved_nil w : Resolved w [] [] w
| Resolved_cons w id r w1 ids rs w' :
    get id w = (Returned r, w1) ->
    Resolved w1 ids rs w' ->
    Resolved w (id :: ids) (r :: rs) w'.

End ScopeExtension.

(** ** A small scope, for the examples

    The scope named [local] holds [util], which it owns, with one loadable
    version and one whose record is missing, and a cached copy of [shared],
    owned by the scope [other]. *)
Module Example.

Definition Extensions := list string.
Definition Vinyl := string.
Definition Dependencies := list string.
Definition Capsule := string.

Definition util_1_0_0 : @Version Dependencies :=
  {| mainFile := "index.js";
     dependencies := [];
     log := {| message := None; date := "1596000000000";
               username := None; email := None |};
     version_hash := mkRef "a1" |}.

Definition shared_2_0_0 : @Version Dependencies :=
  {| mainFile := "main.js";
     dependencies := ["util"];
     log := {| message := Some "second release"; date := "1597000000000";
               username := Some "ada"; email := Some "ada@example.org" |};
     version_hash := mkRef "b2" |}.

Definition util : ModelComponent :=
  {| mc_scope := Some "local"; mc_name := "util";
     versions := <["1.0.0" := mkRef "a1"]> (<["0.9.0" := mkRef "a0"]> ∅);
     latest := "1.0.0" |}.

Definition shared : ModelComponent :=
  {| mc_scope := Some "other"; mc_name := "shared";
     versions := <["2.0.0" := mkRef "b2"]> ∅;
     latest := "2.0.0" |}.

Definition store : list ModelComponent := [util; shared].

Definition scope : @LegacyScope Extensions Vinyl Dependencies :=
  {| name := "local";
     path := "/srv/local";
     scope_getModelComponentIfExist := fun id =>
       List.find
         (fun c => bool_decide (mc_scope c = bid_scope id /\ mc_name c = bid_name id))
         store;
     scope_list := store;
     objects := fun ref =>
       if String.eqb (ref_hash ref) "a1" then Some util_1_0_0
       else if String.eqb (ref_hash ref) "b2" then Some shared_2_0_0
       else None;
     scope_getConsumerComponent := fun id =>
       Returned {| extensions := []; files := [bid_name id +:+ "/index.js"] |} |}.

(** Decimal numerals only: enough of [parseInt] for the dates of the
    examples. *)
Fixpoint decimal (s : string) (acc : option Z) : option Z :=
  match s with
  | EmptyString => acc
  | String c rest =>
      let n := Z.of_N (Ascii.N_of_ascii c) in
      if (48 <=? n) && (n <=? 57)
      then decimal rest (Some (10 * default 0 acc + (n - 48)))
      else acc
  end.

(** Three groups of digits separated by dots: enough of the semantic version
    grammar for the examples. *)
Fixpoint groups (s : string) (seen : nat) (digit : bool) : bool :=
  match s with
  | EmptyString => digit && bool_decide (seen = 2%nat)
  | String c rest =>
      let n := Z.of_N (Ascii.N_of_ascii c) in
      if (48 <=? n) && (n <=? 57) then groups rest seen true
      else if n =? 46 then digit && groups rest (S seen) false
      else false
  end.

Definition runtime : @Runtime Extensions Vinyl Dependencies Capsule :=
  {| isolator_isolateComponents := fun components =>
       Returned (map (fun c => "/capsules/" +:+ bid_name (_legacy (component_id c))) components);
     harmony_loadRequireableExtensions := fun _ => Returned tt;
     semver_valid := fun s => groups s 0 false;
     parseInt := fun s => decimal s None;
     completion := fun _ l => rev l;
     completion_perm := fun _ l => Permutation_sym (Permutation_rev l) |}.

(** The world before any call. *)
Definition w0 : @World Extensions Vinyl Dependencies Capsule :=
  {| events := []; next_oid := 0 |}.

(** [util] with no scope, as a caller of a bare scope names it. *)
Definition bare_util : ComponentID := fromLegacy (mkBitId None "util" None).

(** An identifier nothing in the store answers to. *)
Definition ghost : ComponentID := fromLegacy (mkBitId None "ghost" None).

End Example.

(** ** The rest of the scope extension *)
Section ScopeExtensionRest.

Context {Extensions Vinyl Dependencies Capsule : Type}.
Context (legacyScope : @LegacyScope Extensions Vinyl Dependencies)
        (runtime : @Runtime Extensions Vinyl Dependencies Capsule).

Local Abbreviation M := (@M Extensions Vinyl Dependencies Capsule).
Local Abbreviation Event := (@Event Extensions Vinyl Dependencies Capsule).
Local Abbreviation State := (@State Extensions Vinyl Dependencies).

(** [getState(id, hash)].  What the object store answers for [new Ref(hash)]
    is cast to a [Version] unchecked.  [createStateFromVersion] awaits the
    consumer component before it reads a field of the version, so with no
    object under the hash the consumer component is still asked for, and the
    [TypeError] of [version.mainFile] comes after. *)
Definition getState (id : ComponentID) (hash : string) : M State :=
  (emit (LoadObject (mkRef hash));;
   match objects legacyScope (mkRef hash) with
   | Some version => createStateFromVersion legacyScope id version
   | None =>
       getConsumerComponent legacyScope (_legacy id);;
       throw (TypeError "Cannot read property 'mainFile' of null")
   end)%M.

(** The calls that hydrate a component once its model component is known:
    loads from the object store and reads of the consumer component. *)
Definition hydration_event (e : Event) : bool :=
  match e with
  | LoadObject _ | GetConsumerComponent _ => true
  | _ => false
  end.

(** A computation adds to the trace only calls that satisfy [P]. *)
Definition adds {A} (P : Event -> Prop) (c : M A) : Prop :=
  forall w r w', c w = (r, w') ->
    exists evs, events w' = events w ++ evs /\ Forall P evs.

End ScopeExtensionRest.

(** The callbacks registered with the scope: the two arrays of the legacy
    scope and the two slot registries.  A slot registry belongs to the
    extension framework; [register] is what its method of that name does to
    it. *)
Record Hooks {F Registry : Type} := mkHooks {
  legacy_onTag : list F;
  tagRegistry : Registry;
  legacy_onPostExport : list F;
  postExportRegistry : Registry;
}.
Arguments Hooks : clear implicits.

(** [onTag(tagFn)]. *)
Definition onTag {F Registry} (register : F -> Registry -> Registry)
    (tagFn : F) (this : Hooks F Registry) : Hooks F Registry :=
  {| legacy_onTag := legacy_onTag this ++ [tagFn];
     tagRegistry := register tagFn (tagRegistry this);
     legacy_onPostExport := legacy_onPostExport this;
     postExportRegistry := postExportRegistry this |}.

(** [onPostExport(postExportFn)]. *)
Definition onPostExport {F Registry} (register : F -> Registry -> Registry)
    (postExportFn : F) (this : Hooks F Registry) : Hooks F Registry :=
  {| legacy_onTag := legacy_onTag this;
     tagRegistry := tagRegistry this;
     legacy_onPostExport := legacy_onPostExport this ++ [postExportFn];
     postExportRegistry := register postExportFn (postExportRegistry this) |}.

(** * The script that repairs declaration files

    The second source file rewrites [.d.ts] files in which the compiler left
    an inline import of a name from a library: the inline import is cut out
    of its line and an import statement for it is added to the file.  JavaScript strings
    are modelled as strings of characters; every literal of the script is
    ASCII. *)
Module JsString.

(** The double quote and the line feed, as strings of one character. *)
Definition dquote : string := String "034"%char EmptyString.
Definition newline : string := String "010"%char EmptyString.

(** [s.startsWith(p)]. *)
Fixpoint startsWith (s p : string) {struct p} : bool :=
  match p, s with
  | EmptyString, _ => true
  | String _ _, EmptyString => false
  | String c p', String d s' => Ascii.eqb c d && startsWith s' p'
  end.

(** The index of the first occurrence of [p] in [s], if there is one. *)
Fixpoint find (p s : string) : option nat :=
  if startsWith s p then Some 0%nat
  else match s with
       | EmptyString => None
       | String _ s' => S <$> find p s'
       end.

(** [s.indexOf(p)]: [-1] when [p] does not occur. *)
Definition indexOf (s p : string) : Z :=
  match find p s with
  | Some i => Z.of_nat i
  | None => -1
  end.

(** [s.includes(p)]. *)
Definition includes (s p : string) : bool := bool_decide (is_Some (find p s)).

Fixpoint take (n : nat) (s : string) : string :=
  match n, s with
  | S n', String c s' => String c (take n' s')
  | _, _ => EmptyString
  end.

Fixpoint drop (n : nat) (s : string) : string :=
  match n, s with
  | S n', String _ s' => drop n' s'
  | _, _ => s
  end.

(** [s.substring(start, end)]: both indices are clamped to the string and
    swapped when the first is the larger. *)
Definition substring (s : string) (start end_ : Z) : string :=
  let len := Z.of_nat (String.length s) in
  let finalStart := Z.min (Z.max start 0) len in
  let finalEnd := Z.min (Z.max end_ 0) len in
  let from := Z.min finalStart finalEnd in
  let to := Z.max finalStart finalEnd in
  take (Z.to_nat (to - from)) (drop (Z.to_nat from) s).

(** [s.substring(start)]: to the end of the string. *)
Definition substring_from (s : string) (start : Z) : string :=
  substring s start (Z.of_nat (String.length s)).

(** [s.replace(pattern, replacement)] with a string for pattern: the first
    occurrence is replaced.  The script replaces by the empty string only,
    in which no [$] sequence is to be interpreted. *)
Definition replace (s pattern replacement : string) : string :=
  match find pattern s with
  | None => s
  | Some i => take i s +:+ replacement +:+ drop (i + String.length pattern) s
  end.

(** The class [A-Za-z]. *)
Definition isAlpha (c : ascii) : bool :=
  let n := Ascii.nat_of_ascii c in
  ((65 <=? n)%nat && (n <=? 90)%nat) || ((97 <=? n)%nat && (n <=? 122)%nat).

(** [s.search(/[^A-Za-z]/)]: the index of the first character that is not a
    letter, [-1] when there is none. *)
Fixpoint firstNonAlpha (s : string) : option nat :=
  match s with
  | EmptyString => None
  | String c s' => if isAlpha c then S <$> firstNonAlpha s' else Some 0%nat
  end.

Definition search_nonAlpha (s : string) : Z :=
  match firstNonAlpha s with
  | Some i => Z.of_nat i
  | None => -1
  end.

(** [s.split('\n')]: never empty, the empty string gives one empty line. *)
Fixpoint split_lines (s : string) : list string :=
  match s with
  | EmptyString => [EmptyString]
  | String c s' =>
      if Ascii.eqb c "010"%char then EmptyString :: split_lines s'
      else match split_lines s' with
           | line :: lines => String c line :: lines
           | [] => [String c EmptyString]
           end
  end.

(** [lines.join('\n')]. *)
Fixpoint join_lines (lines : list string) : string :=
  match lines with
  | [] => EmptyString
  | [line] => line
  | line :: rest => line +:+ newline +:+ join_lines rest
  end.

End JsString.

Module DtsFix.

Import JsString.

(** The two literals the script looks for: the opening of an inline import,
    [import(] with a double quote, and its closing, a double quote with
    [).]. *)
Definition import_open : string := "import(" +:+ dquote.
Definition import_close : string := dquote +:+ ").".

(** The file system, as far as the script sees it: the text of the files by
    path. *)
Inductive FsResult (A : Type) :=
| FsOk (a : A)
| ENOENT (path : string).
Arguments FsOk {A} a.
Arguments ENOENT {A} path.

(** [getFileLines(path)]: [readFileSync] throws when there is no file. *)
Definition getFileLines (path : string) (fs : gmap string string)
  : FsResult (list string) :=
  match fs !! path with
  | Some text => FsOk (split_lines text)
  | None => ENOENT path
  end.

(** [replaceFile(filePath, content)]. *)
Definition replaceFile (filePath content : string) (fs : gmap string string)
  : gmap string string :=
  <[filePath := content]> fs.

(** [getInvalidSubstring(line)]. *)
Definition getInvalidSubstring (line : string) : string :=
  let start := indexOf line import_open in
  let end_ := indexOf line import_close + Z.of_nat (String.length import_close) in
  let invalidImportStatement := substring line start end_ in
  invalidImportStatement.

(** [fixedOrReturnLine(line)]; [line.repeat(1)] is the line itself. *)
Definition fixedOrReturnLine (line : string) : string :=
  let lineCopy := line in
  if negb (includes lineCopy import_open) then lineCopy
  else
    let invalidImportStatement := getInvalidSubstring lineCopy in
    let fixedLine := replace lineCopy invalidImportStatement "" in
    fixedLine.

(** [isValidLine(line)]. *)
Definition isValidLine (line : string) : bool := negb (includes line import_open).

(** [getLibName(line)]. *)
Definition getLibName (line : string) : string :=
  let start := indexOf line import_open + Z.of_nat (String.length import_open) in
  let end_ := indexOf line import_close in
  let libName := substring line start end_ in
  libName.

(** [getFirstNonAlphaIndex(str, startIndex)]. *)
Definition getFirstNonAlphaIndex (str : string) (startIndex : Z) : Z :=
  let index := search_nonAlpha (substring_from str startIndex) in
  index.

(** [getExportName(line)]. *)
Definition getExportName (line : string) : string :=
  let start := indexOf line import_close + Z.of_nat (String.length import_close) in
  let end_ := getFirstNonAlphaIndex line start in
  let exportName := substring line start (start + end_) in
  exportName.

(** [getAdditionalLine(line)]. *)
Definition getAdditionalLine (line : string) : string :=
  let exportName := getExportName line in
  let lib := getLibName line in
  "import { " +:+ exportName +:+ " } from '" +:+ lib +:+ "';".

(** A triple-slash directive: [line.startsWith('/// <')]. *)
Definition isDirective (line : string) : bool := startsWith line "/// <".

(** [splettLines(linesArray)]. *)
Record SplitLines := mkSplitLines {
  openLines : list string;
  closingLines : list string;
}.

Definition splettLines (linesArray : list string) : SplitLines :=
  {| openLines := List.filter isDirective linesArray;
     closingLines := List.filter (fun line => negb (isDirective line)) linesArray |}.

(** [mergeLines(properLines, additionalLines)]. *)
Definition mergeLines (properLines additionalLines : list string) : list string :=
  let splitedLines := splettLines properLines in
  openLines splitedLines ++ additionalLines ++ closingLines splitedLines.

(** [fixeDTSfile(filePath)]. *)
Definition fixeDTSfile (filePath : string) (fs : gmap string string)
  : FsResult (gmap string string) :=
  match getFileLines filePath fs with
  | ENOENT path => ENOENT path
  | FsOk lines =>
      let properLines := map fixedOrReturnLine lines in
      let additionalLines :=
        map getAdditionalLine (List.filter (fun line => negb (isValidLine line)) lines) in
      FsOk (replaceFile filePath (join_lines (mergeLines properLines additionalLines)) fs)
  end.

(** The [forEach] of [fixeDTSfilesInDir] over the paths it has computed: an
    exception ends it, the files already rewritten stay rewritten. *)
Fixpoint fixeDTSfiles (dtsFilesPathArray : list string) (fs : gmap string string)
  : FsResult (gmap string string) * gmap string string :=
  match dtsFilesPathArray with
  | [] => (FsOk fs, fs)
  | filePath :: rest =>
      match fixeDTSfile filePath fs with
      | FsOk fs' => fixeDTSfiles rest fs'
      | ENOENT path => (ENOENT path, fs)
      end
  end.

(** [fixeDTSfilesInDir(dtsFolder)].  [glob.sync] and [path.join] belong to
    libraries: [glob_sync] answers the files of the folder that match
    [**/*.d.ts], relative to it, and [path_join] puts the folder in front. *)
Definition fixeDTSfilesInDir
    (glob_sync : string -> gmap string string -> list string)
    (path_join : string -> string -> string)
    (dtsFolder : string) (fs : gmap string string)
  : FsResult (gmap string string) * gmap string string :=
  let dtsFilesPathArray := map (fun file => path_join dtsFolder file) (glob_sync dtsFolder fs) in
  fixeDTSfiles dtsFilesPathArray fs.

(** A line of a declaration file with an inline import, and two files. *)
Definition inline_line : string :=
  "  run(): import(" +:+ dquote +:+ "bluebird" +:+ dquote +:+ ").Promise<void>;".

Definition clean_text : string :=
  "/// <reference types=" +:+ dquote +:+ "node" +:+ dquote +:+ " />" +:+ newline
  +:+ "export declare class Scope {" +:+ newline +:+ "}".

Definition dirty_text : string :=
  "export declare class Scope {" +:+ newline +:+ inline_line +:+ newline +:+ "}".

Definition disk : gmap string string :=
  <["types/clean.d.ts" := clean_text]> (<["types/dirty.d.ts" := dirty_text]> ∅).

End DtsFix.

(** ** A scope with a damaged store, for the examples

    [orphan] has lost the record of its latest version, the consumer
    component of [locked] cannot be produced, and [legacy] has a loadable
    version under a key that is not a semantic version. *)
Module Broken.

Definition orphan : ModelComponent :=
  {| mc_scope := Some "local"; mc_name := "orphan";
     versions := <["1.0.0" := mkRef "gone"]> ∅;
     latest := "1.0.0" |}.

Definition locked : ModelComponent :=
  {| mc_scope := Some "local"; mc_name := "locked";
     versions := <["1.0.0" := mkRef "a1"]> ∅;
     latest := "1.0.0" |}.

Definition legacy : ModelComponent :=
  {| mc_scope := Some "local"; mc_name := "legacy";
     versions := <["1.0.0" := mkRef "a1"]> (<["latest" := mkRef "b2"]> ∅);
     latest := "1.0.0" |}.

Definition store : list ModelComponent := [orphan; locked; legacy].

Definition scope : @LegacyScope Example.Extensions Example.Vinyl Example.Dependencies :=
  {| name := "local";
     path := "/srv/local";
     scope_getModelComponentIfExist := fun id =>
       List.find
         (fun c => bool_decide (mc_scope c = bid_scope id /\ mc_name c = bid_name id))
         store;
     scope_list := store;
     objects := objects Example.scope;
     scope_getConsumerComponent := fun id =>
       if String.eqb (bid_name id) "locked"
       then Thrown (CollaboratorError "locked")
       else Returned {| extensions := []; files := [bid_name id +:+ "/index.js"] |} |}.

(** A runtime whose isolator cannot provision capsules. *)
Definition offline : @Runtime Example.Extensions Example.Vinyl Example.Dependencies
                       Example.Capsule :=
  {| isolator_isolateComponents := fun _ => Thrown (CollaboratorError "no capsule");
     harmony_loadRequireableExtensions := fun _ => Returned tt;
     semver_valid := semver_valid Example.runtime;
     parseInt := parseInt Example.runtime;
     completion := completion Example.runtime;
     completion_perm := completion_perm Example.runtime |}.

Definition idOf_local (name : string) : ComponentID :=
  fromLegacy (mkBitId (Some "local") name None).

(** A version whose log has a user name and an e-mail, both empty. *)
Definition blank_3_0_0 : @Version Example.Dependencies :=
  {| mainFile := "index.js";
     dependencies := [];
     log := {| message := None; date := "1598000000000";
               username := Some EmptyString; email := Some EmptyString |};
     version_hash := mkRef "c3" |}.

End Broken.

(** * Properties *)

(** ** The lodash helpers *)

Lemma compact_Some {A} (l : list A) : Lodash.compact (Some <$> l) = l.
Proof.
  unfold Lodash.compact. induction l as [|a l IH]; csimpl; [done|].
  by f_equal.
Qed.

Lemma compact_length {A} (l : list (option A)) :
  (length (Lodash.compact l) <= length l)%nat.
Proof.
  unfold Lodash.compact. induction l as [|[a|] l IH]; csimpl; lia.
Qed.

Lemma compact_sublist {A} (l : list (option A)) :
  Some <$> Lodash.compact l `sublist_of` l.
Proof.
  unfold Lodash.compact. induction l as [|[a|] l IH]; csimpl.
  - constructor.
  - by apply sublist_skip.
  - by apply sublist_cons.
Qed.

Lemma elem_of_compact {A} (l : list (option A)) (a : A) :
  a ∈ Lodash.compact l <-> Some a ∈ l.
Proof.
  unfold Lodash.compact. rewrite list_elem_of_omap. split.
  - intros (x & Hx & Hid). simpl in Hid. by subst.
  - intros H. by exists (Some a).
Qed.

(** With a start that is not negative and a length that is not negative,
    [slice] is the window of that length at that start. *)
Lemma slice_window {A} (l : list A) (start n : Z) :
  0 <= start -> 0 <= n ->
  Lodash.slice l start (start + n) = take (Z.to_nat n) (drop (Z.to_nat start) l).
Proof.
  intros Hs Hn. destruct l as [|a l]; [by rewrite drop_nil, take_nil|].
  unfold Lodash.slice, Lodash.baseSlice.
  set (xs := a :: l). set (len := Z.of_nat (length xs)).
  destruct (start <? 0) eqn:E1; [lia|].
  destruct (start + n >? len) eqn:E2.
  - destruct (len <? 0) eqn:E3; [lia|].
    destruct (start >? len) eqn:E4.
    + rewrite (drop_ge xs) by (subst len; lia). by rewrite !take_nil.
    + rewrite !take_ge; [done| |]; rewrite length_drop; subst len; lia.
  - destruct (start + n <? 0) eqn:E3; [lia|].
    destruct (start >? start + n) eqn:E4; [lia|].
    do 2 f_equal. lia.
Qed.

Lemma slice_subseteq {A} (l : list A) (start end_ : Z) :
  Lodash.slice l start end_ ⊆ l.
Proof.
  intros x. destruct l as [|a l]; [done|].
  unfold Lodash.slice, Lodash.baseSlice. intros Hx.
  apply elem_of_take in Hx as (i & Hx & _).
  rewrite lookup_drop in Hx. by eapply list_elem_of_lookup_2.
Qed.

(** ** Resolution of one identifier *)
Section Resolution.

Context {Extensions Vinyl Dependencies Capsule : Type}.
Context (legacyScope : @LegacyScope Extensions Vinyl Dependencies)
        (runtime : @Runtime Extensions Vinyl Dependencies Capsule).

Local Abbreviation M := (@M Extensions Vinyl Dependencies Capsule).
Local Abbreviation World := (@World Extensions Vinyl Dependencies Capsule).
Local Abbreviation Component := (@Component Extensions Vinyl Dependencies).
Local Abbreviation get := (get legacyScope runtime).
Local Abbreviation assemble := (assemble legacyScope runtime).
Local Abbreviation lookup_ := (scope_getModelComponentIfExist legacyScope).
Local Abbreviation here := (this_name legacyScope).

(** The world after the lookup of an identifier. *)
Local Abbreviation looked id w :=
  (record (Capsule := Capsule) (GetModelComponentIfExist (_legacy id)) w).

Lemma bind_Returned {A B} (c : M A) (k : A -> M B) (w w' : World) a :
  c w = (Returned a, w') -> bind c k w = k a w'.
Proof. intros H. unfold bind. by rewrite H. Qed.

Lemma bind_Thrown {A B} (c : M A) (k : A -> M B) (w w' : World) e :
  c w = (Thrown e, w') -> bind c k w = (Thrown e, w').
Proof. intros H. unfold bind. by rewrite H. Qed.

Lemma bind_Returned_inv {A B} (c : M A) (k : A -> M B) (w w' : World) b :
  bind c k w = (Returned b, w') ->
  exists a w1, c w = (Returned a, w1) /\ k a w1 = (Returned b, w').
Proof.
  unfold bind. destruct (c w) as [[a|e] w1]; [eauto | discriminate].
Qed.

(** The literal lookup finds the model component. *)
Lemma get_found (id : ComponentID) (w : World) modelComponent :
  lookup_ (_legacy id) = Some modelComponent ->
  get id w = assemble id modelComponent (looked id w).
Proof.
  intros H. unfold get, getModelComponentIfExist, bind, emit, ret.
  rewrite H. simpl. reflexivity.
Qed.

(** The literal lookup finds nothing and the identifier names its scope:
    there is no second lookup. *)
Lemma get_scoped_absent (id : ComponentID) (w : World) :
  lookup_ (_legacy id) = None ->
  Js.truthy_str (id_scope id) = true ->
  get id w = (Returned None, looked id w).
Proof.
  intros H Hs. unfold get, getModelComponentIfExist, bind, emit, ret.
  rewrite H, Hs. simpl. reflexivity.
Qed.

(** The literal lookup finds nothing and the identifier names no scope: the
    identifier is rebound to this scope and looked up once more. *)
Lemma get_rebound (id : ComponentID) (w : World) :
  lookup_ (_legacy id) = None ->
  Js.truthy_str (id_scope id) = false ->
  get id w =
    match lookup_ (_legacy (changeScope id here)) with
    | Some modelComponent =>
        assemble (changeScope id here) modelComponent
          (looked (changeScope id here) (looked id w))
    | None => (Returned None, looked (changeScope id here) (looked id w))
    end.
Proof.
  intros H Hs. unfold get, getModelComponentIfExist, bind, emit, ret.
  rewrite H, Hs.
  destruct (lookup_ (_legacy (changeScope id here))) as [modelComponent|] eqn:E;
    reflexivity.
Qed.

(** Once a model component is found, the answer is a component carrying the
    identifier it was found with, or an exception: never the absent value. *)
Lemma assemble_Returned (id : ComponentID) modelComponent (w w' : World) r :
  assemble id modelComponent w = (Returned r, w') ->
  exists c, r = Some c /\ component_id c = id.
Proof.
  unfold assemble. intros H.
  apply bind_Returned_inv in H as ([version|] & w1 & _ & H); [|discriminate].
  apply bind_Returned_inv in H as (state & w2 & _ & H).
  apply bind_Returned_inv in H as (tagMap & w3 & _ & H).
  unfold ret in H. injection H as <- _. eauto.
Qed.

(** What the identifier of a returned component can be. *)
Lemma get_Returned_id (id : ComponentID) (w w' : World) c :
  get id w = (Returned (Some c), w') ->
  component_id c = id \/
  (Js.truthy_str (id_scope id) = false /\ lookup_ (_legacy id) = None /\
   component_id c = changeScope id here).
Proof.
  intros H. destruct (lookup_ (_legacy id)) as [modelComponent|] eqn:E.
  - rewrite (get_found _ _ _ E) in H.
    apply assemble_Returned in H as (c' & [= <-] & Hid). by left.
  - destruct (Js.truthy_str (id_scope id)) eqn:Es.
    + rewrite get_scoped_absent in H by done. discriminate.
    + rewrite get_rebound in H by done. right.
      destruct (lookup_ (_legacy (changeScope id here))) as [modelComponent|];
      [|discriminate].
      apply assemble_Returned in H as (c' & [= <-] & Hid). done.
Qed.

(** C9. When [get] succeeds through the fallback only (the identifier names
    no scope and is unknown literally), the component it returns carries the
    rebound, scope-qualified identifier; that is not the identifier of the
    caller, unless the caller wrote the empty scope and this scope's name is
    empty too. *)
Theorem get_fallback_component_id (id : ComponentID) (w w' : World) (c : Component) :
  Js.truthy_str (id_scope id) = false ->
  lookup_ (_legacy id) = None ->
  get id w = (Returned (Some c), w') ->
  component_id c = changeScope id here /\
  id_scope (component_id c) = Some here /\
  (id_scope id = None \/ here <> "" -> component_id c <> id).
Proof.
  intros Hs Hlit Hget.
  assert (component_id c = changeScope id here) as Hid.
  { rewrite get_rebound in Hget by done.
    destruct (lookup_ (_legacy (changeScope id here))) as [modelComponent|];
      [|discriminate].
    by apply assemble_Returned in Hget as (c' & [= <-] & Hid). }
  split_and!; [done | by rewrite Hid |].
  rewrite Hid. intros Hne Heq.
  assert (id_scope id = Some here) as E by (by rewrite <- Heq).
  destruct Hne as [Hnone|Hne]; [congruence|].
  rewrite E in Hs. simpl in Hs.
  destruct (String.eqb_spec here ""); done.
Qed.

(** *** Every operation only adds to the trace *)

Lemma extends_ret {A} (a : A) : extends (ret a : M A).
Proof. intros w r w' [= _ <-]. done. Qed.

Lemma extends_throw {A} e : extends (throw e : M A).
Proof. intros w r w' [= _ <-]. done. Qed.

Lemma extends_lift {A} (x : Result A) : extends (lift x : M A).
Proof. intros w r w' [= _ <-]. done. Qed.

Lemma extends_emit e : extends (emit e : M unit).
Proof. intros w r w' [= _ <-]. simpl. by apply prefix_app_r. Qed.

Lemma extends_fresh : extends (fresh : M nat).
Proof. intros w r w' [= _ <-]. done. Qed.

Lemma extends_bind {A B} (c : M A) (k : A -> M B) :
  extends c -> (forall a, extends (k a)) -> extends (bind c k).
Proof.
  intros Hc Hk w r w'. unfold bind.
  destruct (c w) as [[a|e] w1] eqn:E.
  - intros H. etrans; [by eapply Hc | by eapply Hk].
  - intros [= _ <-]. by eapply Hc.
Qed.

Lemma extends_mapSeries {A B} (f : A -> M B) (l : list A) :
  (forall a, extends (f a)) -> extends (mapSeries f l).
Proof.
  intros Hf. induction l as [|a l IH]; simpl.
  - apply extends_ret.
  - apply extends_bind; [done|]. intros b.
    apply extends_bind; [done|]. intros bs. apply extends_ret.
Qed.

Lemma extends_settleAll {A S} (k : S -> A -> M S) (l : list A) (s : S) :
  (forall s a, extends (k s a)) -> extends (settleAll k l s).
Proof.
  intros Hk. revert s. induction l as [|a l IH]; intros s; simpl.
  - apply extends_ret.
  - apply extends_bind; [done|]. intros s'. apply IH.
Qed.

Lemma getTagMap_extends modelComponent :
  extends (getTagMap legacyScope runtime modelComponent).
Proof.
  unfold getTagMap, startAll. apply extends_bind.
  - apply extends_mapSeries. intros versionStr. apply extends_bind.
    + unfold loadVersion. destruct (versions modelComponent !! versionStr).
      * apply extends_bind; [apply extends_emit|]. intros _. apply extends_ret.
      * apply extends_throw.
    + intros version. apply extends_ret.
  - intros loaded. apply extends_settleAll. intros tagMap [versionStr [version|]];
      unfold addTag; simpl; [|apply extends_ret].
    apply extends_bind; [|intros semver; apply extends_ret].
    unfold new_SemVer. destruct (semver_valid runtime versionStr).
    + apply extends_bind; [apply extends_fresh|]. intros o. apply extends_ret.
    + apply extends_throw.
Qed.

Lemma assemble_extends id modelComponent : extends (assemble id modelComponent).
Proof.
  unfold assemble. apply extends_bind.
  - unfold loadVersion. destruct (versions modelComponent !! latest modelComponent).
    + apply extends_bind; [apply extends_emit|]. intros _. apply extends_ret.
    + apply extends_throw.
  - intros [version|]; [|apply extends_throw].
    apply extends_bind.
    + unfold createStateFromVersion, getConsumerComponent.
      apply extends_bind; [|intros consumerComponent; apply extends_ret].
      apply extends_bind; [apply extends_emit|]. intros _. apply extends_lift.
    + intros state. apply extends_bind; [apply getTagMap_extends|].
      intros tagMap. apply extends_ret.
Qed.

(** [get] only adds calls to the trace. *)
Lemma get_extends (id : ComponentID) : extends (get id).
Proof.
  intros w r w' H.
  assert (events w `prefix_of` events (looked id w)) as H1 by (by apply prefix_app_r).
  assert (forall w0 : World, events w0 `prefix_of` events (looked (changeScope id here) w0))
    as H2 by (intros w0; by apply prefix_app_r).
  destruct (lookup_ (_legacy id)) as [modelComponent|] eqn:E.
  - rewrite (get_found _ _ _ E) in H. etrans; [exact H1|]. by eapply assemble_extends.
  - destruct (Js.truthy_str (id_scope id)) eqn:Es.
    + rewrite get_scoped_absent in H by done. by injection H as _ <-.
    + rewrite get_rebound in H by done.
      etrans; [exact H1|]. etrans; [apply H2|].
      destruct (lookup_ (_legacy (changeScope id here))) as [modelComponent|].
      * by eapply assemble_extends.
      * by injection H as _ <-.
Qed.

(** C7. [getOrThrow] returns the very component [get] returns, and fails with
    [ComponentNotFound], carrying the identifier it was called with, where
    [get] returns the absent value; it does so in particular when the store
    knows the identifier neither literally nor rebound to this scope. *)
Theorem getOrThrow_spec (id : ComponentID) (w w' : World) :
  (get id w = (Returned None, w') ->
   getOrThrow legacyScope runtime id w = (Thrown (ComponentNotFound id), w')) /\
  (forall c, get id w = (Returned (Some c), w') ->
   getOrThrow legacyScope runtime id w = (Returned c, w')) /\
  (lookup_ (_legacy id) = None ->
   lookup_ (_legacy (changeScope id here)) = None ->
   exists w1, getOrThrow legacyScope runtime id w = (Thrown (ComponentNotFound id), w1)).
Proof.
  split_and!.
  - intros H. unfold getOrThrow. by rewrite (bind_Returned _ _ _ _ _ H).
  - intros c H. unfold getOrThrow. by rewrite (bind_Returned _ _ _ _ _ H).
  - intros Hlit Hre. unfold getOrThrow.
    destruct (Js.truthy_str (id_scope id)) eqn:Hs.
    + eexists. by rewrite (bind_Returned _ _ _ _ _ (get_scoped_absent id w Hlit Hs)).
    + assert (get id w = (Returned None, looked (changeScope id here) (looked id w)))
        as H by (rewrite get_rebound by done; by rewrite Hre).
      eexists. by rewrite (bind_Returned _ _ _ _ _ H).
Qed.

(** ** Resolution of a batch *)

Lemma mapSeries_Returned_iff (ids : list ComponentID) (w w' : World) rs :
  mapSeries get ids w = (Returned rs, w') <-> Resolved legacyScope runtime w ids rs w'.
Proof.
  revert w rs. induction ids as [|id ids IH]; intros w rs; simpl.
  - unfold ret. split.
    + intros [= <- <-]. constructor.
    + intros H. by inversion H.
  - split.
    + intros H. apply bind_Returned_inv in H as (r & w1 & Hget & H).
      apply bind_Returned_inv in H as (rs' & w2 & Hrest & H).
      unfold ret in H. injection H as <- <-.
      econstructor; [done|]. by apply IH.
    + intros H. inversion H as [|? ? r w1 ? rs' ? Hget Hrest]; subst.
      rewrite (bind_Returned _ _ _ _ _ Hget).
      apply IH in Hrest. by rewrite (bind_Returned _ _ _ _ _ Hrest).
Qed.

Lemma mapSeries_Thrown_iff (ids : list ComponentID) (w w' : World) e :
  mapSeries get ids w = (Thrown e, w') <->
  exists before id after rs w1,
    ids = before ++ id :: after /\
    Resolved legacyScope runtime w before rs w1 /\
    get id w1 = (Thrown e, w').
Proof.
  revert w. induction ids as [|id ids IH]; intros w; simpl.
  - split; [discriminate|].
    intros (before & id & after & _ & _ & Heq & _). by destruct before.
  - split.
    + intros H. unfold bind at 1 in H.
      destruct (get id w) as [[r|e'] w1] eqn:Hget.
      * unfold bind in H.
        destruct (mapSeries get ids w1) as [[rs|e'] w2] eqn:Hrest; [discriminate|].
        injection H as -> ->.
        apply IH in Hrest as (before & id' & after & rs & w3 & -> & Hres & Hthrow).
        exists (id :: before), id', after, (r :: rs), w3.
        split_and!; [done| |done]. by econstructor.
      * injection H as -> ->.
        exists [], id, ids, [], w. split_and!; [done|constructor|done].
    + intros (before & id' & after & rs & w1 & Heq & Hres & Hthrow).
      destruct before as [|id0 before]; simpl in Heq; injection Heq as -> ->.
      * inversion Hres; subst. by rewrite (bind_Thrown _ _ _ _ _ Hthrow).
      * inversion Hres as [|? ? r w2 ? rs' ? Hget Hrest]; subst.
        rewrite (bind_Returned _ _ _ _ _ Hget).
        apply bind_Thrown. apply IH. by exists before, id', after, rs', w1.
Qed.

Lemma Resolved_length (ids : list ComponentID) (w w' : World) rs :
  Resolved legacyScope runtime w ids rs w' -> length rs = length ids.
Proof. induction 1; simpl; congruence. Qed.

(** Every component of a resolved batch is what [get] returned for one of the
    identifiers of the batch. *)
Lemma Resolved_elem_of (ids : list ComponentID) (w w' : World) rs c :
  Resolved legacyScope runtime w ids rs w' ->
  Some c ∈ rs ->
  exists id wa wb, id ∈ ids /\ get id wa = (Returned (Some c), wb).
Proof.
  induction 1 as [|w id r w1 ids rs w' Hget Hres IH]; intros Hin.
  - by apply elem_of_nil in Hin.
  - apply elem_of_cons in Hin as [<-|Hin].
    + exists id, w, w1. split; [left|done].
    + destruct (IH Hin) as (id' & wa & wb & Hid & Hg).
      exists id', wa, wb. split; [by right|done].
Qed.

Lemma Resolved_extends (ids : list ComponentID) (w w' : World) rs :
  Resolved legacyScope runtime w ids rs w' -> events w `prefix_of` events w'.
Proof.
  induction 1 as [|w id r w1 ids rs w' Hget _ IH]; [done|].
  etrans; [by eapply get_extends | exact IH].
Qed.

(** In a resolved batch the call for an identifier comes after the calls
    for the identifiers before it and before the calls for those after
    it. *)
Lemma Resolved_app_inv (before after : list ComponentID) id (w w' : World) rs :
  Resolved legacyScope runtime w (before ++ id :: after) rs w' ->
  exists rs1 r rs2 w1 w2,
    rs = rs1 ++ r :: rs2 /\
    Resolved legacyScope runtime w before rs1 w1 /\
    get id w1 = (Returned r, w2) /\
    Resolved legacyScope runtime w2 after rs2 w'.
Proof.
  revert w rs. induction before as [|id0 before IH]; intros w rs H; simpl in H.
  - inversion H as [|? ? r w1 ? rs' ? Hget Hrest]; subst.
    exists [], r, rs', w, w1. split_and!; [done|constructor|done..].
  - inversion H as [|? ? r0 w0 ? rs' ? Hget Hrest]; subst.
    destruct (IH _ _ Hrest) as (rs1 & r & rs2 & w1 & w2 & -> & H1 & Hid & H2).
    exists (r0 :: rs1), r, rs2, w1, w2. split_and!; [done| |done..].
    by econstructor.
Qed.

Lemma getMany_Returned_iff (ids : list (option ComponentID)) (w w' : World) cs :
  getMany legacyScope runtime ids w = (Returned cs, w') <->
  exists rs,
    Resolved legacyScope runtime w (Lodash.compact ids) rs w' /\
    cs = Lodash.compact rs.
Proof.
  unfold getMany. split.
  - intros H. apply bind_Returned_inv in H as (rs & w1 & Hrs & H).
    unfold ret in H. injection H as <- <-.
    exists rs. split; [by apply mapSeries_Returned_iff|done].
  - intros (rs & Hrs & ->). apply mapSeries_Returned_iff in Hrs.
    by rewrite (bind_Returned _ _ _ _ _ Hrs).
Qed.

Lemma getMany_Thrown_iff (ids : list (option ComponentID)) (w w' : World) e :
  getMany legacyScope runtime ids w = (Thrown e, w') <->
  exists before id after rs w1,
    Lodash.compact ids = before ++ id :: after /\
    Resolved legacyScope runtime w before rs w1 /\
    get id w1 = (Thrown e, w').
Proof.
  rewrite <- mapSeries_Thrown_iff. unfold getMany, bind.
  destruct (mapSeries get (Lodash.compact ids) w) as [[rs|e'] w1].
  - unfold ret. split; discriminate.
  - split; intros [= -> ->]; done.
Qed.

Lemma getMany_length (ids : list (option ComponentID)) (w w' : World) cs :
  getMany legacyScope runtime ids w = (Returned cs, w') ->
  (length cs <= length (Lodash.compact ids))%nat.
Proof.
  intros H. apply getMany_Returned_iff in H as (rs & Hrs & ->).
  rewrite <- (Resolved_length _ _ _ _ Hrs). apply compact_length.
Qed.

(** C2. [getMany] drops the empty entries of its input, then calls [get] on
    what is left one identifier after the other, in the order of the input,
    each call starting in the world the previous one left, so that in the
    trace the calls made for an identifier follow those made for the
    identifiers before it and precede those made for the identifiers after
    it; it returns the components so obtained in that order, the absent
    answers dropped, so that the output is no longer than the input and
    keeps the order of the components present.  An exception of [get] ends
    the iteration there. *)
Theorem getMany_sequential_in_order (ids : list (option ComponentID)) (w : World) :
  (forall cs w',
     getMany legacyScope runtime ids w = (Returned cs, w') <->
     exists rs,
       Resolved legacyScope runtime w (Lodash.compact ids) rs w' /\
       cs = Lodash.compact rs) /\
  (forall cs w',
     getMany legacyScope runtime ids w = (Returned cs, w') ->
     exists rs,
       length rs = length (Lodash.compact ids) /\
       Some <$> cs `sublist_of` rs /\
       (length cs <= length ids)%nat) /\
  (forall before id after rs w',
     Lodash.compact ids = before ++ id :: after ->
     Resolved legacyScope runtime w (Lodash.compact ids) rs w' ->
     exists rs1 r rs2 w1 w2,
       rs = rs1 ++ r :: rs2 /\
       Resolved legacyScope runtime w before rs1 w1 /\
       get id w1 = (Returned r, w2) /\
       Resolved legacyScope runtime w2 after rs2 w' /\
       events w `prefix_of` events w1 /\
       events w1 `prefix_of` events w2 /\
       events w2 `prefix_of` events w') /\
  (forall e w',
     getMany legacyScope runtime ids w = (Thrown e, w') <->
     exists before id after rs w1,
       Lodash.compact ids = before ++ id :: after /\
       Resolved legacyScope runtime w before rs w1 /\
       get id w1 = (Thrown e, w')).
Proof.
  split_and!.
  - intros cs w'. apply getMany_Returned_iff.
  - intros cs w' H. pose proof (getMany_length _ _ _ _ H) as Hlen.
    apply getMany_Returned_iff in H as (rs & Hrs & ->).
    exists rs. split_and!.
    + by eapply Resolved_length.
    + apply compact_sublist.
    + pose proof (compact_length ids). lia.
  - intros before id after rs w' Heq Hrs. rewrite Heq in Hrs.
    destruct (Resolved_app_inv _ _ _ _ _ _ Hrs)
      as (rs1 & r & rs2 & w1 & w2 & -> & H1 & Hid & H2).
    exists rs1, r, rs2, w1, w2. split_and!; try done.
    + by eapply Resolved_extends.
    + by eapply get_extends.
    + by eapply Resolved_extends.
  - intros e w'. apply getMany_Thrown_iff.
Qed.

End Resolution.

(** ** Listing and loading extensions *)
Section Listing.

Context {Extensions Vinyl Dependencies Capsule : Type}.
Context (legacyScope : @LegacyScope Extensions Vinyl Dependencies)
        (runtime : @Runtime Extensions Vinyl Dependencies Capsule).

Local Abbreviation World := (@World Extensions Vinyl Dependencies Capsule).
Local Abbreviation Component := (@Component Extensions Vinyl Dependencies).
Local Abbreviation get := (get legacyScope runtime).
Local Abbreviation getMany := (getMany legacyScope runtime).
Local Abbreviation list_ := (list_ legacyScope runtime).
Local Abbreviation listing := (listing legacyScope).
Local Abbreviation loadExtensions := (loadExtensions legacyScope runtime).
Local Abbreviation here := (this_name legacyScope).

(** The world after the store has been asked for its model components. *)
Local Abbreviation listed_in w := (record (Capsule := Capsule) ListModelComponents w).

(** The page [list] takes of the listing. *)
Lemma list_unfold (filter : option Filter) (includeCache : bool) (w : World) :
  list_ filter includeCache w =
    getMany
      (Some <$>
         match filter with
         | Some filter =>
             if Js.truthy_num (limit filter)
             then Lodash.slice (listing includeCache) (offset filter)
                    (offset filter + limit filter)
             else listing includeCache
         | None => listing includeCache
         end)
      (listed_in w).
Proof. destruct includeCache; reflexivity. Qed.

(** Without the cache, every component [list] returns comes from a model
    component that [exists] accepts, and carries this scope's name. *)
Lemma list_local_only (filter : option Filter) (w w' : World) (cs : list Component) :
  list_ filter false w = (Returned cs, w') ->
  Forall
    (fun c =>
       id_scope (component_id c) = Some here /\
       exists modelComponent,
         modelComponent ∈ scope_list legacyScope /\
         exists_ legacyScope modelComponent = true /\
         mc_scope modelComponent = Some here /\
         exists wa wb, get (idOf modelComponent) wa = (Returned (Some c), wb))
    cs.
Proof.
  rewrite list_unfold. intros H.
  apply getMany_Returned_iff in H as (rs & Hrs & ->).
  rewrite compact_Some in Hrs.
  apply Forall_forall. intros c Hc. apply elem_of_compact in Hc.
  destruct (Resolved_elem_of _ _ _ _ _ _ _ Hrs Hc) as (id & wa & wb & Hid & Hget).
  assert (id ∈ listing false) as Hin.
  { destruct filter as [f|]; [|done].
    destruct (Js.truthy_num (limit f)); [|done].
    by eapply slice_subseteq. }
  unfold listing in Hin.
  apply list_elem_of_fmap in Hin as (modelComponent & -> & Hmc).
  unfold listed in Hmc. apply list_elem_of_In, filter_In in Hmc as [Hmc Hex].
  apply list_elem_of_In in Hmc.
  assert (mc_scope modelComponent = Some here) as Hscope.
  { unfold exists_ in Hex. by apply bool_decide_eq_true in Hex. }
  split.
  - apply get_Returned_id in Hget as [->|(_ & _ & ->)]; [done|reflexivity].
  - exists modelComponent. split_and!; [done..|]. by exists wa, wb.
Qed.

(** C8. With an extension list that yields no identifier, [loadExtensions]
    returns at once: the world is the one it started in, so nothing was read
    from the store, nothing was hydrated, no capsule was provisioned and the
    loader was not called. *)
Theorem loadExtensions_empty_noop (extensions : ExtensionDataList) (w : World) :
  extensionsBitIds extensions = [] ->
  loadExtensions extensions w = (Returned tt, w).
Proof. intros H. unfold loadExtensions. by rewrite H. Qed.

(** With identifiers, [loadExtensions] is [getMany], then the isolator, then
    the loader. *)
Lemma loadExtensions_unfold (extensions : ExtensionDataList) (w : World) :
  extensionsBitIds extensions <> [] ->
  loadExtensions extensions w =
    bind (getMany (Some <$> map fromLegacy (extensionsBitIds extensions)))
      (fun components =>
         bind (isolateComponents runtime components)
           (fun capsules =>
              loadRequireableExtensions runtime (map fromCapsule capsules))) w.
Proof.
  intros H. unfold loadExtensions.
  by destruct (extensionsBitIds extensions).
Qed.

(** C10. With a non-empty list of extension identifiers, once [get] has
    answered for each of them in turn, the isolator receives the components
    [get] returned and nothing else, and the loader the capsules of those: an
    identifier for which [get] returned the absent value is dropped and does
    not make [loadExtensions] fail.  When the isolator and the loader succeed
    so does [loadExtensions]. *)
Theorem loadExtensions_drops_absent (extensions : ExtensionDataList) (w w1 : World)
    (rs : list (option Component)) :
  extensionsBitIds extensions <> [] ->
  Resolved legacyScope runtime w (map fromLegacy (extensionsBitIds extensions)) rs w1 ->
  loadExtensions extensions w =
    bind (isolateComponents runtime (Lodash.compact rs))
      (fun capsules => loadRequireableExtensions runtime (map fromCapsule capsules)) w1 /\
  Forall
    (fun c => exists id wa wb,
       id ∈ map fromLegacy (extensionsBitIds extensions) /\
       get id wa = (Returned (Some c), wb))
    (Lodash.compact rs) /\
  (forall capsules,
     isolator_isolateComponents runtime (Lodash.compact rs) = Returned capsules ->
     harmony_loadRequireableExtensions runtime (map fromCapsule capsules) = Returned tt ->
     loadExtensions extensions w =
       (Returned tt,
        record (LoadRequireableExtensions (map fromCapsule capsules))
          (record (IsolateComponents (Lodash.compact rs)) w1))).
Proof.
  intros Hne Hrs.
  assert (loadExtensions extensions w =
    bind (isolateComponents runtime (Lodash.compact rs))
      (fun capsules => loadRequireableExtensions runtime (map fromCapsule capsules)) w1)
    as Heq.
  { rewrite loadExtensions_unfold by done.
    assert (getMany (Some <$> map fromLegacy (extensionsBitIds extensions)) w
            = (Returned (Lodash.compact rs), w1)) as Hmany.
    { apply getMany_Returned_iff. exists rs. by rewrite compact_Some. }
    by rewrite (bind_Returned _ _ _ _ _ Hmany). }
  split_and!.
  - exact Heq.
  - apply Forall_forall. intros c Hc. apply elem_of_compact in Hc.
    by eapply Resolved_elem_of.
  - intros capsules Hiso Hload. rewrite Heq.
    unfold bind, isolateComponents, loadRequireableExtensions, emit, lift, bind.
    by rewrite Hiso, Hload.
Qed.

(** C6, as amended.  For a filter whose offset is not negative and whose
    limit is positive, [list] hydrates the window of the full ordered listing
    that starts at index [offset] and has at most [limit] identifiers, and so
    returns at most [limit] components.  A limit of [0] switches pagination
    off, as does the absence of a filter: the whole listing is hydrated. *)
Theorem list_paginates (filter : Filter) (includeCache : bool) (w : World) :
  (0 <= offset filter -> 0 < limit filter ->
   let page :=
     take (Z.to_nat (limit filter)) (drop (Z.to_nat (offset filter)) (listing includeCache)) in
   list_ (Some filter) includeCache w = getMany (Some <$> page) (listed_in w) /\
   (forall i, page !! i = listing includeCache !! (Z.to_nat (offset filter) + i)%nat
              \/ (Z.to_nat (limit filter) <= i)%nat) /\
   Z.of_nat (length page) <= limit filter /\
   (forall cs w', list_ (Some filter) includeCache w = (Returned cs, w') ->
                  Z.of_nat (length cs) <= limit filter)) /\
  (limit filter = 0 ->
   list_ (Some filter) includeCache w = getMany (Some <$> listing includeCache) (listed_in w)) /\
  list_ None includeCache w = getMany (Some <$> listing includeCache) (listed_in w).
Proof.
  split_and!.
  - intros Hoff Hlim page.
    assert (list_ (Some filter) includeCache w = getMany (Some <$> page) (listed_in w))
      as Heq.
    { rewrite list_unfold. unfold Js.truthy_num.
      destruct (Z.eqb_spec (limit filter) 0) as [E|_]; [lia|]. simpl.
      by rewrite slice_window by lia. }
    assert (Z.of_nat (length page) <= limit filter) as Hlen.
    { subst page. rewrite length_take. lia. }
    split_and!; [done | | done |].
    + intros i. destruct (decide (i < Z.to_nat (limit filter))%nat) as [Hi|Hi].
      * left. subst page. rewrite lookup_take_lt by done. by rewrite lookup_drop.
      * right. lia.
    + intros cs w' H. rewrite Heq in H.
      apply getMany_length in H. rewrite compact_Some in H. lia.
  - intros H0. rewrite list_unfold. unfold Js.truthy_num. by rewrite H0.
  - by rewrite list_unfold.
Qed.

End Listing.

(** ** Snaps and the tag map *)
Section Tags.

Context {Extensions Vinyl Dependencies Capsule : Type}.
Context (legacyScope : @LegacyScope Extensions Vinyl Dependencies)
        (runtime : @Runtime Extensions Vinyl Dependencies Capsule).

Local Abbreviation World := (@World Extensions Vinyl Dependencies Capsule).
Local Abbreviation Version := (@Version Dependencies).
Local Abbreviation createSnapFromVersion := (createSnapFromVersion runtime).

Lemma or_else_absent (d : string) : Js.or_else None d = d.
Proof. reflexivity. Qed.

Lemma or_else_empty (d : string) : Js.or_else (Some "") d = d.
Proof. reflexivity. Qed.

Lemma or_else_present (s d : string) : s <> "" -> Js.or_else (Some s) d = s.
Proof.
  intros H. unfold Js.or_else, Js.truthy_str.
  by destruct (String.eqb_spec s "").
Qed.

(** C4, as amended.  The snap of a version names its author ["unknown"] when
    the log has no user name or an empty one, gives it the address
    ["unknown@anywhere"] when the log has no e-mail or an empty one, and
    keeps a name or an address that is there and not empty; its list of
    parents is empty; its message is the message of the log as it is,
    absent when the log has none. *)
Theorem createSnapFromVersion_defaults (version : Version) :
  let snap := createSnapFromVersion version in
  (username (log version) = None -> displayName (author snap) = "unknown") /\
  (username (log version) = Some EmptyString -> displayName (author snap) = "unknown") /\
  (email (log version) = None -> author_email (author snap) = "unknown@anywhere") /\
  (email (log version) = Some EmptyString ->
   author_email (author snap) = "unknown@anywhere") /\
  (forall u, username (log version) = Some u -> u <> EmptyString ->
             displayName (author snap) = u) /\
  (forall e, email (log version) = Some e -> e <> EmptyString ->
             author_email (author snap) = e) /\
  parents snap = [] /\
  snap_hash snap = ref_hash (version_hash version) /\
  snap_message snap = message (log version).
Proof.
  simpl. split_and!; try reflexivity.
  - by intros ->.
  - intros ->. apply or_else_empty.
  - by intros ->.
  - intros ->. apply or_else_empty.
  - intros u -> Hu. by apply or_else_present.
  - intros e -> He. by apply or_else_present.
Qed.

(** A key that is not among the keys of the map is appended. *)
Lemma TagMap_set_fresh (key : SemVer) (value : Tag) (m : TagMap) :
  Forall (fun entry => oid entry.1 <> oid key) m ->
  TagMap_set key value m = m ++ [(key, value)].
Proof.
  induction 1 as [|[k v] m Hk _ IH]; simpl; [done|].
  simpl in Hk. destruct (decide (oid k = oid key)); [done|]. by rewrite IH.
Qed.

Lemma loadVersion_key (modelComponent : ModelComponent) (versionStr : string) ref (w : World) :
  versions modelComponent !! versionStr = Some ref ->
  loadVersion legacyScope modelComponent versionStr w =
    (Returned (objects legacyScope ref), record (LoadObject ref) w).
Proof. intros H. unfold loadVersion. by rewrite H. Qed.

(** The loads of [getTagMap] are all started, one per key; none of them
    allocates an object. *)
Lemma startAll_loads (modelComponent : ModelComponent) (l : list (string * Ref)) (w : World) :
  Forall (fun entry => versions modelComponent !! entry.1 = Some entry.2) l ->
  exists w',
    startAll
      (fun versionStr =>
         let* version := loadVersion legacyScope modelComponent versionStr in
         ret (versionStr, version))%M
      (l.*1) w
    = (Returned ((fun entry => (entry.1, objects legacyScope entry.2)) <$> l), w') /\
    next_oid w' = next_oid w /\
    events w' = events w ++ ((fun entry => LoadObject entry.2) <$> l).
Proof.
  intros Hl. revert w. unfold startAll.
  induction Hl as [|[k ref] l Hk _ IH]; intros w; csimpl.
  - exists w. by rewrite app_nil_r.
  - simpl in Hk. destruct (IH (record (LoadObject ref) w)) as (w' & Hrun & Hoid & Hev).
    exists w'. split_and!.
    + assert ((let* version := loadVersion legacyScope modelComponent k in
               ret (k, version))%M w
              = (Returned (k, objects legacyScope ref), record (LoadObject ref) w))
        as Hfirst by (by rewrite (bind_Returned _ _ _ _ _ (loadVersion_key _ _ _ _ Hk))).
      rewrite (bind_Returned _ _ _ _ _ Hfirst).
      by rewrite (bind_Returned _ _ _ _ _ Hrun).
    + by rewrite Hoid.
    + rewrite Hev. simpl. by rewrite <- app_assoc.
Qed.

Lemma new_SemVer_valid (versionStr : string) (w : World) :
  semver_valid runtime versionStr = true ->
  new_SemVer runtime versionStr w =
    (Returned {| oid := next_oid w; raw := versionStr |},
     {| events := events w; next_oid := S (next_oid w) |}).
Proof. intros H. unfold new_SemVer. by rewrite H. Qed.

(** The continuations add one entry per load that answered a record, under
    a key no entry had before, and nothing for the others. *)
Lemma settleAll_addTag (l : list (string * option Version)) (tagMap : TagMap) (w : World) :
  (forall k v, (k, Some v) ∈ l -> semver_valid runtime k = true) ->
  Forall (fun entry => (oid entry.1 < next_oid w)%nat) tagMap ->
  exists added w',
    settleAll (addTag runtime) l tagMap w = (Returned (tagMap ++ added), w') /\
    events w' = events w /\
    (next_oid w <= next_oid w')%nat /\
    Forall (fun entry => (next_oid w <= oid entry.1 < next_oid w')%nat) added /\
    NoDup (oid <$> added.*1) /\
    raw <$> added.*1 = loaded_keys l /\
    Forall
      (fun entry =>
         tag_version entry.2 = entry.1 /\
         exists version,
           (raw entry.1, Some version) ∈ l /\
           tag_snap entry.2 = createSnapFromVersion version)
      added.
Proof.
  revert tagMap w. induction l as [|[k [v|]] l IH]; intros tagMap w Hvalid Hold.
  - exists [], w. rewrite app_nil_r. split_and!; try done. constructor.
  - assert (semver_valid runtime k = true) as Hk by (eapply Hvalid; left).
    set (semver := {| oid := next_oid w; raw := k |}).
    set (tag := mkTag (createSnapFromVersion v) semver).
    set (w1 := {| events := events w; next_oid := S (next_oid w) |} : World).
    assert (addTag runtime tagMap (k, Some v) w = (Returned (tagMap ++ [(semver, tag)]), w1))
      as Hadd.
    { unfold addTag. simpl.
      rewrite (bind_Returned _ _ _ _ _ (new_SemVer_valid k w Hk)).
      unfold ret. rewrite TagMap_set_fresh; [done|].
      eapply Forall_impl; [exact Hold|]. simpl. intros entry. lia. }
    destruct (IH (tagMap ++ [(semver, tag)]) w1)
      as (added & w' & Hrun & Hev & Hmono & Hnew & Hnd & Hkeys & Hcont).
    { intros k' v' Hin. eapply Hvalid. by right. }
    { apply Forall_app. split.
      - eapply Forall_impl; [exact Hold|]. simpl. intros entry. lia.
      - constructor; [simpl; lia|constructor]. }
    simpl in Hmono.
    exists ((semver, tag) :: added), w'. split_and!.
    + simpl. rewrite (bind_Returned _ _ _ _ _ Hadd). rewrite Hrun.
      by rewrite <- app_assoc.
    + done.
    + lia.
    + constructor; [simpl; lia|].
      eapply Forall_impl; [exact Hnew|]. simpl. intros entry. lia.
    + csimpl. apply NoDup_cons. split; [|done].
      intros Hin. apply list_elem_of_fmap in Hin as (sv & Hoid & Hin).
      apply list_elem_of_fmap in Hin as (entry & -> & Hin).
      rewrite Forall_forall in Hnew. specialize (Hnew _ Hin). simpl in *. lia.
    + csimpl. unfold loaded_keys in *. csimpl. by f_equal.
    + constructor.
      * split; [done|]. exists v. split; [left|done].
      * eapply Forall_impl; [exact Hcont|]. simpl.
        intros entry (Htag & version & Hin & Hsnap).
        split; [done|]. exists version. split; [by right|done].
  - destruct (IH tagMap w)
      as (added & w' & Hrun & Hev & Hmono & Hnew & Hnd & Hkeys & Hcont).
    { intros k' v' Hin. eapply Hvalid. by right. }
    { done. }
    exists added, w'. split_and!; try done.
    eapply Forall_impl; [exact Hcont|]. simpl.
    intros entry (Htag & version & Hin & Hsnap).
    split; [done|]. exists version. split; [by right|done].
Qed.

Lemma map_to_list_filter_perm {V} (P : string * V -> Prop) `{!forall x, Decision (P x)}
    (m : gmap string V) :
  map_to_list (filter P m) ≡ₚ filter P (map_to_list m).
Proof.
  apply NoDup_Permutation.
  - apply NoDup_map_to_list.
  - apply NoDup_filter, NoDup_map_to_list.
  - intros [k v].
    rewrite elem_of_map_to_list, map_lookup_filter_Some, list_elem_of_filter,
      elem_of_map_to_list.
    tauto.
Qed.

Lemma loaded_keys_loads (l : list (string * Ref)) :
  loaded_keys ((fun entry => (entry.1, objects legacyScope entry.2)) <$> l)
  = (filter (fun entry => is_Some (objects legacyScope entry.2)) l).*1.
Proof.
  unfold loaded_keys. induction l as [|[k ref] l IH]; csimpl; [done|].
  destruct (objects legacyScope ref) as [v|] eqn:E.
  - rewrite filter_cons_True by (simpl; rewrite E; eauto). csimpl. by rewrite IH.
  - rewrite filter_cons_False by (simpl; rewrite E; by intros [? ?]). done.
Qed.

(** [getTagMap] on a model component whose loadable keys are semantic
    versions: it returns, with one entry per loadable version. *)
Lemma getTagMap_entries (modelComponent : ModelComponent) (w : World) :
  (forall versionStr,
     is_Some (loadable legacyScope modelComponent !! versionStr) ->
     semver_valid runtime versionStr = true) ->
  exists tagMap w',
    getTagMap legacyScope runtime modelComponent w = (Returned tagMap, w') /\
    length tagMap = size (loadable legacyScope modelComponent) /\
    (size (loadable legacyScope modelComponent) <= size (versions modelComponent))%nat /\
    NoDup (oid <$> tagMap.*1) /\
    raw <$> tagMap.*1 ≡ₚ (map_to_list (loadable legacyScope modelComponent)).*1 /\
    Forall
      (fun entry =>
         tag_version entry.2 = entry.1 /\
         exists ref version,
           versions modelComponent !! raw entry.1 = Some ref /\
           objects legacyScope ref = Some version /\
           tag_snap entry.2 = createSnapFromVersion version)
      tagMap.
Proof.
  intros Hvalid.
  set (l := map_to_list (versions modelComponent)).
  set (loads := (fun entry : string * Ref => (entry.1, objects legacyScope entry.2)) <$> l).
  assert (forall k v, (k, Some v) ∈ loads ->
            exists ref, versions modelComponent !! k = Some ref /\
                        objects legacyScope ref = Some v) as Hloads.
  { intros k v Hin. apply list_elem_of_fmap in Hin as ([k' ref] & [= -> Hv] & Hin).
    apply elem_of_map_to_list in Hin. eauto. }
  destruct (startAll_loads modelComponent l w) as (w1 & Hstart & _ & _).
  { apply Forall_forall. intros [k ref] Hin. by apply elem_of_map_to_list in Hin. }
  destruct (settleAll_addTag (completion runtime _ loads) [] w1)
    as (tagMap & w' & Hrun & _ & _ & _ & Hnd & Hkeys & Hcont).
  { intros k v Hin. rewrite (completion_perm runtime) in Hin.
    destruct (Hloads k v Hin) as (ref & Hk & Hv).
    apply Hvalid. exists ref. apply map_lookup_filter_Some. simpl. eauto. }
  { constructor. }
  simpl in Hrun.
  assert (raw <$> tagMap.*1 ≡ₚ (map_to_list (loadable legacyScope modelComponent)).*1)
    as Hperm.
  { rewrite Hkeys. unfold loaded_keys. rewrite (completion_perm runtime).
    fold (loaded_keys loads). unfold loads. rewrite loaded_keys_loads.
    unfold loadable. by rewrite map_to_list_filter_perm. }
  exists tagMap, w'. split_and!.
  - unfold getTagMap, Object_keys. fold l.
    rewrite (bind_Returned _ _ _ _ _ Hstart). exact Hrun.
  - rewrite <- length_map_to_list, <- (length_fmap fst (map_to_list _)), <- Hperm.
    by rewrite !length_fmap.
  - apply map_size_filter.
  - done.
  - done.
  - eapply Forall_impl; [exact Hcont|]. simpl.
    intros entry (Htag & version & Hin & Hsnap). split; [done|].
    rewrite (completion_perm runtime) in Hin.
    destruct (Hloads _ _ Hin) as (ref & Hk & Hv). eauto.
Qed.

(** C3. For a model component with [N] version keys of which [M] have a
    record the store loads, the keys being semantic versions as the data
    model has them (it is enough that the loadable ones are), [getTagMap]
    does not fail and returns a map of exactly [M] entries under [M]
    different keys: one per loadable version, made of the snap of that
    version and keyed by the semantic version of its string, and none for
    the [N - M] others. *)
Theorem getTagMap_loadable_entries (modelComponent : ModelComponent) (w : World) :
  (forall versionStr,
     is_Some (loadable legacyScope modelComponent !! versionStr) ->
     semver_valid runtime versionStr = true) ->
  exists tagMap w',
    getTagMap legacyScope runtime modelComponent w = (Returned tagMap, w') /\
    length tagMap = size (loadable legacyScope modelComponent) /\
    (size (loadable legacyScope modelComponent) <= size (versions modelComponent))%nat /\
    NoDup (oid <$> tagMap.*1) /\
    raw <$> tagMap.*1 ≡ₚ (map_to_list (loadable legacyScope modelComponent)).*1 /\
    Forall
      (fun entry =>
         tag_version entry.2 = entry.1 /\
         exists ref version,
           versions modelComponent !! raw entry.1 = Some ref /\
           objects legacyScope ref = Some version /\
           tag_snap entry.2 = createSnapFromVersion version)
      tagMap.
Proof. apply getTagMap_entries. Qed.

End Tags.

(** ** The fallback for identifiers without a scope *)
Section Fallback.

Context {Extensions Vinyl Dependencies Capsule : Type}.
Context (legacyScope : @LegacyScope Extensions Vinyl Dependencies)
        (runtime : @Runtime Extensions Vinyl Dependencies Capsule).

Local Abbreviation World := (@World Extensions Vinyl Dependencies Capsule).
Local Abbreviation createSnapFromVersion := (createSnapFromVersion runtime).

(** With a store that has the record of the latest version and a consumer
    component for the identifier, and tag keys that are semantic versions,
    the component is assembled. *)
Lemma assemble_succeeds (id : ComponentID) (modelComponent : ModelComponent) (w : World)
    ref version consumerComponent :
  versions modelComponent !! latest modelComponent = Some ref ->
  objects legacyScope ref = Some version ->
  scope_getConsumerComponent legacyScope (_legacy id) = Returned consumerComponent ->
  (forall versionStr,
     is_Some (loadable legacyScope modelComponent !! versionStr) ->
     semver_valid runtime versionStr = true) ->
  exists c w',
    assemble legacyScope runtime id modelComponent w = (Returned (Some c), w') /\
    component_id c = id /\
    head c = createSnapFromVersion version /\
    length (tags c) = size (loadable legacyScope modelComponent).
Proof.
  intros Hlatest Hobj Hcc Hvalid.
  set (w1 := record (Capsule := Capsule) (LoadObject ref) w).
  set (w2 := record (Capsule := Capsule) (GetConsumerComponent (_legacy id)) w1).
  set (st := mkState (mkConfig (mainFile version) (extensions consumerComponent))
               (fromVinyls (files consumerComponent)) (dependencies version)
               consumerComponent).
  assert (createStateFromVersion legacyScope id version w1 = (Returned st, w2)) as Hstate.
  { unfold createStateFromVersion, getConsumerComponent, bind, emit, lift, ret.
    by rewrite Hcc. }
  destruct (getTagMap_entries legacyScope runtime modelComponent w2 Hvalid)
    as (tagMap & w' & Htags & Hlen & _).
  exists (mkComponent id (createSnapFromVersion version) st tagMap (this_name legacyScope)), w'.
  split_and!; [|done..].
  unfold assemble.
  rewrite (bind_Returned _ _ _ _ _ (loadVersion_key legacyScope _ _ _ w Hlatest)).
  rewrite Hobj.
  rewrite (bind_Returned _ _ _ _ _ Hstate).
  by rewrite (bind_Returned _ _ _ _ _ Htags).
Qed.

(** C1. For an identifier that names no scope and that the store does not
    know literally: if the store knows the identifier rebound to this scope's
    name, [get] answers what it finds under the rebound identifier, never the
    absent value, and with the record of the latest version and the consumer
    component at hand it returns the component of that model component; if
    the store knows neither, [get] returns the absent value and raises
    nothing. *)
Theorem get_bare_scope_fallback (id : ComponentID) (w : World) :
  Js.truthy_str (id_scope id) = false ->
  scope_getModelComponentIfExist legacyScope (_legacy id) = None ->
  let rebound := changeScope id (this_name legacyScope) in
  let w1 := record (Capsule := Capsule) (GetModelComponentIfExist (_legacy id)) w in
  (forall modelComponent,
     scope_getModelComponentIfExist legacyScope (_legacy rebound) = Some modelComponent ->
     get legacyScope runtime id w = get legacyScope runtime rebound w1 /\
     (forall w', get legacyScope runtime id w <> (Returned None, w')) /\
     (forall ref version consumerComponent,
        versions modelComponent !! latest modelComponent = Some ref ->
        objects legacyScope ref = Some version ->
        scope_getConsumerComponent legacyScope (_legacy rebound) = Returned consumerComponent ->
        (forall versionStr,
           is_Some (loadable legacyScope modelComponent !! versionStr) ->
           semver_valid runtime versionStr = true) ->
        exists c w',
          get legacyScope runtime id w = (Returned (Some c), w') /\
          component_id c = rebound /\
          head c = createSnapFromVersion version /\
          length (tags c) = size (loadable legacyScope modelComponent))) /\
  (scope_getModelComponentIfExist legacyScope (_legacy rebound) = None ->
   get legacyScope runtime id w =
     (Returned None, record (GetModelComponentIfExist (_legacy rebound)) w1)).
Proof.
  intros Hs Hlit rebound w1. split.
  - intros modelComponent Hre.
    pose proof (get_rebound legacyScope runtime id w Hlit Hs) as Hget.
    fold rebound in Hget. rewrite Hre in Hget.
    split_and!.
    + rewrite Hget. symmetry. by apply get_found.
    + intros w' Habs. rewrite Hget in Habs.
      apply assemble_Returned in Habs as (c & [=] & _).
    + intros ref version consumerComponent Hlatest Hobj Hcc Hvalid.
      rewrite Hget. by eapply assemble_succeeds.
  - intros Hre. rewrite (get_rebound legacyScope runtime) by done.
    fold rebound. by rewrite Hre.
Qed.

End Fallback.

(** ** Listing with and without the cache *)

(** C5. Whatever the store holds, [list] without the cache (the default)
    returns only components that come from a model component whose owning
    scope is this scope's name, as [exists] decides, and that carry that
    name; with the cache it may return a component owned by another scope,
    as it does for [shared] in the example scope. *)
Theorem list_excludes_cache_by_default :
  (forall Extensions Vinyl Dependencies Capsule
          (legacyScope : @LegacyScope Extensions Vinyl Dependencies)
          (runtime : @Runtime Extensions Vinyl Dependencies Capsule)
          filter w cs w',
     list_ legacyScope runtime filter false w = (Returned cs, w') ->
     Forall
       (fun c =>
          id_scope (component_id c) = Some (this_name legacyScope) /\
          exists modelComponent,
            modelComponent ∈ scope_list legacyScope /\
            exists_ legacyScope modelComponent = true /\
            mc_scope modelComponent = Some (this_name legacyScope) /\
            exists wa wb,
              get legacyScope runtime (idOf modelComponent) wa = (Returned (Some c), wb))
       cs) /\
  (exists cs w' c,
     list_ Example.scope Example.runtime None true Example.w0 = (Returned cs, w') /\
     c ∈ cs /\
     component_id c = idOf Example.shared /\
     Example.shared ∈ scope_list Example.scope /\
     exists_ Example.scope Example.shared = false /\
     id_scope (component_id c) <> Some (this_name Example.scope)).
Proof.
  split.
  - intros. by eapply list_local_only.
  - destruct (list_ Example.scope Example.runtime None true Example.w0)
      as [[cs|e] w'] eqn:H; vm_compute in H; [|discriminate].
    injection H as <- <-.
    eexists _, _, _. split; [reflexivity|].
    split; [right; left|].
    split_and!; [reflexivity | right; left | reflexivity | discriminate].
Qed.

(** ** The statements at work on the example scope *)

(** The loadable version keys of [util] are semantic versions. *)
Lemma util_loadable_valid (versionStr : string) :
  is_Some (loadable Example.scope Example.util !! versionStr) ->
  semver_valid Example.runtime versionStr = true.
Proof.
  intros [ref H].
  apply map_lookup_filter_Some in H as [H Hload]. simpl in Hload.
  change (versions Example.util)
    with (<["1.0.0" := mkRef "a1"]> (<["0.9.0" := mkRef "a0"]> (∅ : gmap string Ref)))
    in H.
  apply lookup_insert_Some in H as [[<- <-]|[_ H]]; [reflexivity|].
  apply lookup_insert_Some in H as [[<- <-]|[_ H]].
  - vm_compute in Hload. destruct Hload as [v Hv]. discriminate.
  - by rewrite lookup_empty in H.
Qed.

Lemma get_bare_scope_fallback_witness :
  Js.truthy_str (id_scope Example.bare_util) = false /\
  scope_getModelComponentIfExist Example.scope (_legacy Example.bare_util) = None /\
  scope_getModelComponentIfExist Example.scope
    (_legacy (changeScope Example.bare_util "local")) = Some Example.util /\
  get Example.scope Example.runtime Example.bare_util Example.w0 =
    get Example.scope Example.runtime (changeScope Example.bare_util "local")
      (record (GetModelComponentIfExist (_legacy Example.bare_util)) Example.w0) /\
  (exists c w',
     get Example.scope Example.runtime Example.bare_util Example.w0
     = (Returned (Some c), w') /\
     component_id c = changeScope Example.bare_util "local" /\
     head c = createSnapFromVersion Example.runtime Example.util_1_0_0) /\
  exists w',
    get Example.scope Example.runtime Example.ghost Example.w0 = (Returned None, w').
Proof.
  destruct (get_bare_scope_fallback Example.scope Example.runtime Example.bare_util
              Example.w0 eq_refl eq_refl) as [Hfound _].
  destruct (Hfound Example.util eq_refl) as (Hsame & _ & Hreturns).
  destruct (Hreturns (mkRef "a1") Example.util_1_0_0
              {| extensions := []; files := ["util/index.js"] |}
              eq_refl eq_refl eq_refl util_loadable_valid)
    as (c & w' & Hget & Hid & Hhead & _).
  split_and!; [reflexivity..| exact Hsame | |].
  - exists c, w'. split_and!; [exact Hget | exact Hid | exact Hhead].
  - eexists.
    apply (proj2 (get_bare_scope_fallback Example.scope Example.runtime
                    Example.ghost Example.w0 eq_refl eq_refl)).
    reflexivity.
Defined.

Lemma get_fallback_component_id_witness :
  match get Example.scope Example.runtime Example.bare_util Example.w0 with
  | (Returned (Some c), _) =>
      component_id c = changeScope Example.bare_util "local" /\
      component_id c <> Example.bare_util
  | _ => False
  end.
Proof.
  destruct (get Example.scope Example.runtime Example.bare_util Example.w0)
    as [[[c|]|e] w'] eqn:H; [|vm_compute in H; discriminate..].
  destruct (get_fallback_component_id Example.scope Example.runtime Example.bare_util
              Example.w0 w' c eq_refl eq_refl H) as (Hid & _ & Hne).
  split; [exact Hid|]. apply Hne. by left.
Defined.

Lemma getOrThrow_spec_witness :
  (exists w1,
     getOrThrow Example.scope Example.runtime Example.ghost Example.w0
     = (Thrown (ComponentNotFound Example.ghost), w1)) /\
  (exists c w1,
     get Example.scope Example.runtime Example.bare_util Example.w0 = (Returned (Some c), w1) /\
     getOrThrow Example.scope Example.runtime Example.bare_util Example.w0 = (Returned c, w1)).
Proof.
  split.
  - apply (getOrThrow_spec Example.scope Example.runtime Example.ghost Example.w0 Example.w0);
      reflexivity.
  - destruct (get Example.scope Example.runtime Example.bare_util Example.w0)
      as [[[c|]|e] w'] eqn:H; [|vm_compute in H; discriminate..].
    exists c, w'. split; [reflexivity|].
    by apply (getOrThrow_spec Example.scope Example.runtime Example.bare_util Example.w0 w').
Defined.

Lemma getMany_sequential_in_order_witness :
  exists cs w',
    getMany Example.scope Example.runtime
      [Some Example.bare_util; None; Some Example.ghost; Some (idOf Example.shared)]
      Example.w0 = (Returned cs, w') /\
    component_id <$> cs = [changeScope Example.bare_util "local"; idOf Example.shared] /\
    exists rs, length rs = 3%nat /\ Some <$> cs `sublist_of` rs.
Proof.
  set (ids := [Some Example.bare_util; None; Some Example.ghost; Some (idOf Example.shared)]).
  destruct (getMany Example.scope Example.runtime ids Example.w0) as [[cs|e] w'] eqn:H;
    [|vm_compute in H; discriminate].
  exists cs, w'. split; [reflexivity|]. split.
  - vm_compute in H. by injection H as <- _.
  - destruct (proj1 (proj2 (getMany_sequential_in_order Example.scope Example.runtime
                              ids Example.w0)) cs w' H) as (rs & Hlen & Hsub & _).
    exists rs. split; [exact Hlen | exact Hsub].
Defined.

Lemma loadExtensions_empty_noop_witness :
  extensionsBitIds (mkExtensionDataList []) = [] /\
  loadExtensions Example.scope Example.runtime (mkExtensionDataList []) Example.w0
  = (Returned tt, Example.w0).
Proof.
  split; [reflexivity|].
  apply (loadExtensions_empty_noop Example.scope Example.runtime). reflexivity.
Defined.

Lemma getTagMap_loadable_entries_witness :
  size (versions Example.util) = 2%nat /\
  size (loadable Example.scope Example.util) = 1%nat /\
  exists tagMap w',
    getTagMap Example.scope Example.runtime Example.util Example.w0 = (Returned tagMap, w') /\
    length tagMap = 1%nat /\
    raw <$> tagMap.*1 ≡ₚ ["1.0.0"].
Proof.
  split; [reflexivity|]. split; [reflexivity|].
  destruct (getTagMap_loadable_entries Example.scope Example.runtime Example.util Example.w0)
    as (tagMap & w' & Hrun & Hlen & _ & _ & Hkeys & _).
  - exact util_loadable_valid.
  - exists tagMap, w'. split; [exact Hrun|]. split; [exact Hlen | exact Hkeys].
Defined.

Lemma createSnapFromVersion_defaults_witness :
  username (log Example.util_1_0_0) = None /\
  email (log Example.util_1_0_0) = None /\
  username (log Example.shared_2_0_0) = Some "ada" /\
  email (log Example.shared_2_0_0) = Some "ada@example.org" /\
  username (log Broken.blank_3_0_0) = Some EmptyString /\
  email (log Broken.blank_3_0_0) = Some EmptyString /\
  displayName (author (createSnapFromVersion Example.runtime Example.util_1_0_0)) = "unknown" /\
  author_email (author (createSnapFromVersion Example.runtime Example.util_1_0_0))
    = "unknown@anywhere" /\
  displayName (author (createSnapFromVersion Example.runtime Example.shared_2_0_0)) = "ada" /\
  author_email (author (createSnapFromVersion Example.runtime Example.shared_2_0_0))
    = "ada@example.org" /\
  displayName (author (createSnapFromVersion Example.runtime Broken.blank_3_0_0)) = "unknown" /\
  author_email (author (createSnapFromVersion Example.runtime Broken.blank_3_0_0))
    = "unknown@anywhere".
Proof.
  destruct (createSnapFromVersion_defaults Example.runtime Example.util_1_0_0)
    as (Hname & _ & Hmail & _).
  destruct (createSnapFromVersion_defaults Example.runtime Example.shared_2_0_0)
    as (_ & _ & _ & _ & Hkept & Hkept' & _).
  destruct (createSnapFromVersion_defaults Example.runtime Broken.blank_3_0_0)
    as (_ & Hblank & _ & Hblank' & _).
  split_and!; [reflexivity..| | | | | |].
  - apply Hname. reflexivity.
  - apply Hmail. reflexivity.
  - apply Hkept; [reflexivity | discriminate].
  - apply Hkept'; [reflexivity | discriminate].
  - apply Hblank. reflexivity.
  - apply Hblank'. reflexivity.
Defined.

(** The message of a log that has none stays absent: no sentinel takes its
    place. *)
Lemma createSnapFromVersion_message_counterexample :
  message (log Example.util_1_0_0) = None /\
  ~ (exists sentinel,
       snap_message (createSnapFromVersion Example.runtime Example.util_1_0_0)
       = Some sentinel).
Proof. split; [reflexivity|]. intros [sentinel H]. discriminate. Qed.

Lemma list_excludes_cache_by_default_witness :
  exists cs w',
    list_ Example.scope Example.runtime None false Example.w0 = (Returned cs, w') /\
    component_id <$> cs = [idOf Example.util] /\
    Forall (fun c => id_scope (component_id c) = Some "local") cs.
Proof.
  destruct (list_ Example.scope Example.runtime None false Example.w0)
    as [[cs|e] w'] eqn:H; [|vm_compute in H; discriminate].
  exists cs, w'. split; [reflexivity|]. split.
  - vm_compute in H. by injection H as <- _.
  - eapply Forall_impl.
    + exact (proj1 list_excludes_cache_by_default _ _ _ _ Example.scope Example.runtime
               None Example.w0 cs w' H).
    + intros c [Hc _]. exact Hc.
Defined.

Lemma list_paginates_witness :
  0 <= 1 /\ 0 < 1 /\
  list_ Example.scope Example.runtime (Some (mkFilter 1 1)) true Example.w0
  = getMany Example.scope Example.runtime [Some (idOf Example.shared)]
      (record ListModelComponents Example.w0).
Proof.
  split; [lia|]. split; [lia|].
  apply (proj1 (list_paginates Example.scope Example.runtime (mkFilter 1 1) true Example.w0));
    simpl; lia.
Defined.

(** With a limit of [0] the filter is ignored: [list] returns the whole
    listing, from its first element, and not at most [0] components starting
    at index [1]. *)
Lemma list_limit_zero_counterexample :
  exists cs w',
    list_ Example.scope Example.runtime (Some (mkFilter 1 0)) true Example.w0
    = (Returned cs, w') /\
    component_id <$> cs = listing Example.scope true /\
    ~ (Z.of_nat (length cs) <= limit (mkFilter 1 0)).
Proof.
  destruct (list_ Example.scope Example.runtime (Some (mkFilter 1 0)) true Example.w0)
    as [[cs|e] w'] eqn:H; vm_compute in H; [|discriminate].
  injection H as <- <-. eexists _, _. split; [reflexivity|].
  split; [reflexivity|]. simpl. lia.
Qed.

Lemma loadExtensions_drops_absent_witness :
  extensionsBitIds
    (mkExtensionDataList [_legacy Example.ghost; _legacy Example.bare_util]) <> [] /\
  exists w' components,
    loadExtensions Example.scope Example.runtime
      (mkExtensionDataList [_legacy Example.ghost; _legacy Example.bare_util])
      Example.w0 = (Returned tt, w') /\
    IsolateComponents components ∈ events w' /\
    component_id <$> components = [changeScope Example.bare_util "local"].
Proof.
  set (extensions := mkExtensionDataList [_legacy Example.ghost; _legacy Example.bare_util]).
  split; [discriminate|].
  destruct (mapSeries (get Example.scope Example.runtime)
              (map fromLegacy (extensionsBitIds extensions)) Example.w0)
    as [[rs|e] w1] eqn:H; [|vm_compute in H; discriminate].
  pose proof H as Hrs. apply mapSeries_Returned_iff in Hrs.
  destruct (loadExtensions_drops_absent Example.scope Example.runtime extensions
              Example.w0 w1 rs ltac:(discriminate) Hrs) as (_ & _ & Hload).
  eexists _, (Lodash.compact rs). split; [|split].
  - apply Hload; reflexivity.
  - simpl. apply elem_of_app. left. apply elem_of_app. right. left.
  - vm_compute in H. by injection H as <- _.
Defined.

(** * Further properties of the scope extension *)
Section Footprint.

Context {Extensions Vinyl Dependencies Capsule : Type}.
Context (legacyScope : @LegacyScope Extensions Vinyl Dependencies)
        (runtime : @Runtime Extensions Vinyl Dependencies Capsule).

Local Abbreviation M := (@M Extensions Vinyl Dependencies Capsule).
Local Abbreviation World := (@World Extensions Vinyl Dependencies Capsule).
Local Abbreviation Event := (@Event Extensions Vinyl Dependencies Capsule).
Local Abbreviation Component := (@Component Extensions Vinyl Dependencies).
Local Abbreviation get := (get legacyScope runtime).
Local Abbreviation assemble := (assemble legacyScope runtime).
Local Abbreviation getTagMap := (getTagMap legacyScope runtime).
Local Abbreviation lookup_ := (scope_getModelComponentIfExist legacyScope).
Local Abbreviation here := (this_name legacyScope).
Local Abbreviation looked id w :=
  (record (Capsule := Capsule) (GetModelComponentIfExist (_legacy id)) w).

Lemma adds_ret {A} (P : Event -> Prop) (a : A) : adds P (ret a : M A).
Proof. intros w r w' [= _ <-]. exists []. by rewrite app_nil_r. Qed.

Lemma adds_throw {A} (P : Event -> Prop) e : adds P (throw e : M A).
Proof. intros w r w' [= _ <-]. exists []. by rewrite app_nil_r. Qed.

Lemma adds_lift {A} (P : Event -> Prop) (x : Result A) : adds P (lift x : M A).
Proof. intros w r w' [= _ <-]. exists []. by rewrite app_nil_r. Qed.

Lemma adds_fresh (P : Event -> Prop) : adds P (fresh : M nat).
Proof. intros w r w' [= _ <-]. exists []. by rewrite app_nil_r. Qed.

Lemma adds_emit (P : Event -> Prop) e : P e -> adds P (emit e : M unit).
Proof. intros He w r w' [= _ <-]. exists [e]. split; [done|]. by constructor. Qed.

Lemma adds_bind {A B} (P : Event -> Prop) (c : M A) (k : A -> M B) :
  adds P c -> (forall a, adds P (k a)) -> adds P (bind c k).
Proof.
  intros Hc Hk w r w'. unfold bind.
  destruct (c w) as [[a|e] w1] eqn:E.
  - intros H. destruct (Hc _ _ _ E) as (evs1 & Hev1 & H1).
    destruct (Hk _ _ _ _ H) as (evs2 & Hev2 & H2).
    exists (evs1 ++ evs2). rewrite Hev2, Hev1, <- app_assoc. split; [done|].
    by apply Forall_app.
  - intros [= <- <-]. by eapply Hc.
Qed.

Lemma adds_mapSeries {A B} (P : Event -> Prop) (f : A -> M B) (l : list A) :
  (forall a, adds P (f a)) -> adds P (mapSeries f l).
Proof.
  intros Hf. induction l as [|a l IH]; simpl.
  - apply adds_ret.
  - apply adds_bind; [done|]. intros b.
    apply adds_bind; [done|]. intros bs. apply adds_ret.
Qed.

Lemma adds_settleAll {A S} (P : Event -> Prop) (k : S -> A -> M S) (l : list A) (s : S) :
  (forall s a, adds P (k s a)) -> adds P (settleAll k l s).
Proof.
  intros Hk. revert s. induction l as [|a l IH]; intros s; simpl.
  - apply adds_ret.
  - apply adds_bind; [done|]. intros s'. apply IH.
Qed.

Lemma loadVersion_adds modelComponent versionStr :
  adds (fun e : Event => hydration_event e = true)
    (loadVersion legacyScope modelComponent versionStr).
Proof.
  unfold loadVersion. destruct (versions modelComponent !! versionStr).
  - apply adds_bind; [by apply adds_emit|]. intros _. apply adds_ret.
  - apply adds_throw.
Qed.

Lemma getTagMap_adds modelComponent :
  adds (fun e : Event => hydration_event e = true) (getTagMap modelComponent).
Proof.
  unfold getTagMap, startAll. apply adds_bind.
  - apply adds_mapSeries. intros versionStr. apply adds_bind.
    + apply loadVersion_adds.
    + intros version. apply adds_ret.
  - intros loaded. apply adds_settleAll. intros tagMap [versionStr [version|]];
      unfold addTag; simpl; [|apply adds_ret].
    apply adds_bind; [|intros semver; apply adds_ret].
    unfold new_SemVer. destruct (semver_valid runtime versionStr).
    + apply adds_bind; [apply adds_fresh|]. intros o. apply adds_ret.
    + apply adds_throw.
Qed.

Lemma assemble_adds id modelComponent :
  adds (fun e : Event => hydration_event e = true) (assemble id modelComponent).
Proof.
  unfold assemble. apply adds_bind; [apply loadVersion_adds|].
  intros [version|]; [|apply adds_throw].
  apply adds_bind.
  - unfold createStateFromVersion, getConsumerComponent.
    apply adds_bind; [|intros consumerComponent; apply adds_ret].
    apply adds_bind; [by apply adds_emit|]. intros _. apply adds_lift.
  - intros state. apply adds_bind; [apply getTagMap_adds|].
    intros tagMap. apply adds_ret.
Qed.

(** X1. Whatever its outcome, [get] first looks the identifier up as it is;
    it looks the rebound identifier up next only when the first lookup found
    nothing and the identifier names no scope; all it does after that is load
    objects and read the consumer component.  It never lists the store,
    isolates a component or loads an extension, and when it returns the
    absent value it has made nothing but lookups. *)
Theorem get_footprint (id : ComponentID) (w w' : World) r :
  get id w = (r, w') ->
  exists evs,
    Forall (fun e : Event => hydration_event e = true) evs /\
    (r = Returned None -> evs = []) /\
    events w' =
      events w ++
      GetModelComponentIfExist (_legacy id) ::
      (if bool_decide (is_Some (lookup_ (_legacy id))) || Js.truthy_str (id_scope id)
       then evs
       else GetModelComponentIfExist (_legacy (changeScope id here)) :: evs).
Proof.
  intros H. destruct (lookup_ (_legacy id)) as [modelComponent|] eqn:E.
  - rewrite (get_found _ _ _ _ _ E) in H.
    destruct (assemble_adds _ _ _ _ _ H) as (evs & Hev & Hall).
    exists evs. split_and!; [done| |].
    + intros ->. by apply assemble_Returned in H as (c & [=] & _).
    + rewrite Hev. simpl. by rewrite <- app_assoc.
  - destruct (Js.truthy_str (id_scope id)) eqn:Es.
    + rewrite get_scoped_absent in H by done. injection H as <- <-.
      exists []. split_and!; done.
    + rewrite get_rebound in H by done.
      destruct (lookup_ (_legacy (changeScope id here))) as [modelComponent|].
      * destruct (assemble_adds _ _ _ _ _ H) as (evs & Hev & Hall).
        exists evs. split_and!; [done| |].
        -- intros ->. by apply assemble_Returned in H as (c & [=] & _).
        -- rewrite Hev. simpl. by rewrite <- !app_assoc.
      * injection H as <- <-. exists []. split_and!; [done..|].
        simpl. by rewrite <- app_assoc.
Qed.

End Footprint.

Section Hydration.

Context {Extensions Vinyl Dependencies Capsule : Type}.
Context (legacyScope : @LegacyScope Extensions Vinyl Dependencies)
        (runtime : @Runtime Extensions Vinyl Dependencies Capsule).

Local Abbreviation M := (@M Extensions Vinyl Dependencies Capsule).
Local Abbreviation World := (@World Extensions Vinyl Dependencies Capsule).
Local Abbreviation Version := (@Version Dependencies).
Local Abbreviation Component := (@Component Extensions Vinyl Dependencies).
Local Abbreviation get := (get legacyScope runtime).
Local Abbreviation assemble := (assemble legacyScope runtime).
Local Abbreviation getTagMap := (getTagMap legacyScope runtime).
Local Abbreviation createSnapFromVersion := (createSnapFromVersion runtime).
Local Abbreviation lookup_ := (scope_getModelComponentIfExist legacyScope).
Local Abbreviation here := (this_name legacyScope).
Local Abbreviation looked id w :=
  (record (Capsule := Capsule) (GetModelComponentIfExist (_legacy id)) w).

Lemma loadVersion_Returned_inv modelComponent versionStr (w w' : World) version :
  loadVersion legacyScope modelComponent versionStr w = (Returned version, w') ->
  exists ref,
    versions modelComponent !! versionStr = Some ref /\
    objects legacyScope ref = version /\
    w' = record (LoadObject ref) w.
Proof.
  unfold loadVersion. destruct (versions modelComponent !! versionStr) as [ref|];
    [|discriminate].
  intros [= <- <-]. eauto.
Qed.

Lemma createStateFromVersion_Returned_inv id (version : Version) (w w' : World) st :
  createStateFromVersion legacyScope id version w = (Returned st, w') ->
  exists consumerComponent,
    scope_getConsumerComponent legacyScope (_legacy id) = Returned consumerComponent /\
    st = mkState (mkConfig (mainFile version) (extensions consumerComponent))
           (fromVinyls (files consumerComponent)) (dependencies version)
           consumerComponent /\
    w' = record (GetConsumerComponent (_legacy id)) w.
Proof.
  unfold createStateFromVersion, getConsumerComponent, bind, emit, lift, ret.
  destruct (scope_getConsumerComponent legacyScope (_legacy id)) as [cc|e];
    [|discriminate].
  intros [= <- <-]. eauto.
Qed.

(** What a component [assemble] returns is made of. *)
Lemma assemble_Returned_inv id modelComponent (w w' : World) (c : Component) :
  assemble id modelComponent w = (Returned (Some c), w') ->
  exists ref version consumerComponent tagMap w2,
    versions modelComponent !! latest modelComponent = Some ref /\
    objects legacyScope ref = Some version /\
    scope_getConsumerComponent legacyScope (_legacy id) = Returned consumerComponent /\
    getTagMap modelComponent w2 = (Returned tagMap, w') /\
    c = mkComponent id (createSnapFromVersion version)
          (mkState (mkConfig (mainFile version) (extensions consumerComponent))
             (fromVinyls (files consumerComponent)) (dependencies version)
             consumerComponent)
          tagMap here.
Proof.
  unfold assemble. intros H.
  apply bind_Returned_inv in H as ([version|] & w1 & Hload & H); [|discriminate].
  apply loadVersion_Returned_inv in Hload as (ref & Hlatest & Hobj & ->).
  apply bind_Returned_inv in H as (st & w2 & Hstate & H).
  apply createStateFromVersion_Returned_inv in Hstate as (cc & Hcc & -> & ->).
  apply bind_Returned_inv in H as (tagMap & w3 & Htags & H).
  unfold ret in H. injection H as <- <-.
  eexists ref, version, cc, tagMap, _. split_and!; done.
Qed.

(** A component [get] returns was assembled from the model component the
    store holds under the identifier the component carries. *)
Lemma get_Returned_assemble (id : ComponentID) (w w' : World) (c : Component) :
  get id w = (Returned (Some c), w') ->
  exists modelComponent w1,
    lookup_ (_legacy (component_id c)) = Some modelComponent /\
    assemble (component_id c) modelComponent w1 = (Returned (Some c), w').
Proof.
  intros H. destruct (lookup_ (_legacy id)) as [modelComponent|] eqn:E.
  - rewrite (get_found _ _ _ _ _ E) in H.
    pose proof (assemble_Returned _ _ _ _ _ _ _ H) as (c' & [= <-] & Hid).
    rewrite Hid. eauto.
  - destruct (Js.truthy_str (id_scope id)) eqn:Es.
    + rewrite get_scoped_absent in H by done. discriminate.
    + rewrite get_rebound in H by done.
      destruct (lookup_ (_legacy (changeScope id here))) as [modelComponent|] eqn:E';
        [|discriminate].
      pose proof (assemble_Returned _ _ _ _ _ _ _ H) as (c' & [= <-] & Hid).
      rewrite Hid. eauto.
Qed.

(** X2. When the store knows the identifier but has no record for the latest
    version of its model component, [get] does not return the absent value:
    it raises a [TypeError] right after the failed load, before any read of
    the consumer component. *)
Theorem get_latest_record_missing (id : ComponentID) (w : World) modelComponent ref :
  lookup_ (_legacy id) = Some modelComponent ->
  versions modelComponent !! latest modelComponent = Some ref ->
  objects legacyScope ref = None ->
  get id w =
    (Thrown (TypeError "Cannot read property 'hash' of null"),
     record (LoadObject ref) (looked id w)).
Proof.
  intros Hfound Hlatest Hobj. rewrite (get_found _ _ _ _ _ Hfound).
  unfold assemble.
  rewrite (bind_Returned _ _ _ _ _ (loadVersion_key legacyScope _ _ _ _ Hlatest)).
  by rewrite Hobj.
Qed.

(** X3. When the consumer component cannot be produced, [get] fails with the
    very exception of the legacy scope, and stops there: no version of the
    tag map is loaded. *)
Theorem get_consumer_failure (id : ComponentID) (w : World) modelComponent ref version e :
  lookup_ (_legacy id) = Some modelComponent ->
  versions modelComponent !! latest modelComponent = Some ref ->
  objects legacyScope ref = Some version ->
  scope_getConsumerComponent legacyScope (_legacy id) = Thrown e ->
  get id w =
    (Thrown e,
     record (GetConsumerComponent (_legacy id))
       (record (LoadObject ref) (looked id w))).
Proof.
  intros Hfound Hlatest Hobj Hcc. rewrite (get_found _ _ _ _ _ Hfound).
  unfold assemble.
  rewrite (bind_Returned _ _ _ _ _ (loadVersion_key legacyScope _ _ _ _ Hlatest)).
  rewrite Hobj. apply bind_Thrown.
  unfold createStateFromVersion, getConsumerComponent, bind, emit, lift.
  by rewrite Hcc.
Qed.

End Hydration.

Section TagMapFailure.

Context {Extensions Vinyl Dependencies Capsule : Type}.
Context (legacyScope : @LegacyScope Extensions Vinyl Dependencies)
        (runtime : @Runtime Extensions Vinyl Dependencies Capsule).

Local Abbreviation World := (@World Extensions Vinyl Dependencies Capsule).
Local Abbreviation Version := (@Version Dependencies).
Local Abbreviation Component := (@Component Extensions Vinyl Dependencies).
Local Abbreviation get := (get legacyScope runtime).
Local Abbreviation getTagMap := (getTagMap legacyScope runtime).
Local Abbreviation loadable := (loadable legacyScope).
Local Abbreviation createSnapFromVersion := (createSnapFromVersion runtime).
Local Abbreviation lookup_ := (scope_getModelComponentIfExist legacyScope).

(** The continuations fail only on a version string that is not a semantic
    version and whose record was loaded, with the exception of [new SemVer]. *)
Lemma settleAll_addTag_outcome (l : list (string * option Version)) (tagMap : TagMap)
    (w w' : World) r :
  settleAll (addTag runtime) l tagMap w = (r, w') ->
  match r with
  | Returned _ => forall k v, (k, Some v) ∈ l -> semver_valid runtime k = true
  | Thrown e =>
      exists k v,
        (k, Some v) ∈ l /\ semver_valid runtime k = false /\
        e = TypeError ("Invalid Version: " +:+ k)
  end.
Proof.
  revert tagMap w. induction l as [|[k [v|]] l IH]; intros tagMap w; simpl.
  - intros [= <- _]. intros k v Hin. by apply elem_of_nil in Hin.
  - unfold bind at 1.
    destruct (addTag runtime tagMap (k, Some v) w) as [[tagMap'|e] w1] eqn:Hadd.
    + intros H. apply IH in H.
      assert (semver_valid runtime k = true) as Hk.
      { unfold addTag, new_SemVer in Hadd. simpl in Hadd.
        destruct (semver_valid runtime k); [done|]. discriminate. }
      destruct r as [tm|e].
      * intros k' v' Hin. apply elem_of_cons in Hin as [[= -> ->]|Hin]; eauto.
      * destruct H as (k' & v' & Hin & Hbad & ->).
        exists k', v'. split_and!; [by right|done..].
    + intros [= <- <-].
      unfold addTag, new_SemVer in Hadd. simpl in Hadd.
      destruct (semver_valid runtime k) eqn:Hk; [discriminate|].
      unfold bind, throw in Hadd. injection Hadd as <- _.
      exists k, v. split_and!; [left|done..].
  - assert (addTag runtime tagMap (k, None) w = (Returned tagMap, w)) as Hadd
      by reflexivity.
    rewrite (bind_Returned _ _ _ _ _ Hadd).
    intros H. apply IH in H. destruct r as [tm|e].
    + intros k' v' Hin. apply elem_of_cons in Hin as [[=]|Hin]; eauto.
    + destruct H as (k' & v' & Hin & Hbad & ->).
      exists k', v'. split_and!; [by right|done..].
Qed.

(** [getTagMap] comes down to the continuations, run on the loads of the
    versions in the order of their completion. *)
Lemma getTagMap_settles (modelComponent : ModelComponent) (w : World) :
  exists l w1,
    getTagMap modelComponent w = settleAll (addTag runtime) l [] w1 /\
    (forall k, is_Some (loadable modelComponent !! k) <-> exists v, (k, Some v) ∈ l).
Proof.
  set (l := map_to_list (versions modelComponent)).
  set (loads := (fun entry : string * Ref => (entry.1, objects legacyScope entry.2)) <$> l).
  destruct (startAll_loads legacyScope modelComponent l w) as (w1 & Hstart & _ & _).
  { apply Forall_forall. intros [k ref] Hin. by apply elem_of_map_to_list in Hin. }
  exists (completion runtime _ loads), w1. split.
  - unfold getTagMap, Object_keys. fold l.
    by rewrite (bind_Returned _ _ _ _ _ Hstart).
  - intros k. split.
    + intros [ref H]. apply map_lookup_filter_Some in H as [H [v Hv]]. simpl in Hv.
      exists v. rewrite (completion_perm runtime).
      apply list_elem_of_fmap. exists (k, ref). simpl. rewrite Hv.
      split; [done|]. by apply elem_of_map_to_list.
    + intros [v Hin]. rewrite (completion_perm runtime) in Hin.
      apply list_elem_of_fmap in Hin as ([k' ref] & [= -> Hv] & Hin).
      apply elem_of_map_to_list in Hin. exists ref.
      apply map_lookup_filter_Some. simpl. eauto.
Qed.

Lemma getTagMap_Returned_valid (modelComponent : ModelComponent) (w w' : World) tagMap :
  getTagMap modelComponent w = (Returned tagMap, w') ->
  forall versionStr,
    is_Some (loadable modelComponent !! versionStr) ->
    semver_valid runtime versionStr = true.
Proof.
  intros H versionStr Hk.
  destruct (getTagMap_settles modelComponent w) as (l & w1 & Hrun & Hl).
  rewrite Hrun in H. apply settleAll_addTag_outcome in H.
  apply Hl in Hk as [v Hin]. eauto.
Qed.

(** X4. [getTagMap] returns exactly when every version string whose record
    the store loads is a semantic version.  Otherwise it fails with the
    [Invalid Version] error of [new SemVer] for one of the loadable strings
    that are not; a string that is not a semantic version does no harm as
    long as its record is missing. *)
Theorem getTagMap_returns_iff (modelComponent : ModelComponent) (w : World) :
  ((exists tagMap w', getTagMap modelComponent w = (Returned tagMap, w')) <->
   (forall versionStr,
      is_Some (loadable modelComponent !! versionStr) ->
      semver_valid runtime versionStr = true)) /\
  (forall e w',
     getTagMap modelComponent w = (Thrown e, w') ->
     exists versionStr,
       is_Some (loadable modelComponent !! versionStr) /\
       semver_valid runtime versionStr = false /\
       e = TypeError ("Invalid Version: " +:+ versionStr)).
Proof.
  split; [split|].
  - intros (tagMap & w' & H). by eapply getTagMap_Returned_valid.
  - intros Hvalid.
    destruct (getTagMap_entries legacyScope runtime modelComponent w Hvalid)
      as (tagMap & w' & H & _). eauto.
  - intros e w' H.
    destruct (getTagMap_settles modelComponent w) as (l & w1 & Hrun & Hl).
    rewrite Hrun in H. apply settleAll_addTag_outcome in H.
    destruct H as (k & v & Hin & Hbad & ->). exists k. split_and!; [|done..].
    apply Hl. eauto.
Qed.

(** The tag map of a returned component, read back from the model component
    it was assembled from. *)
Lemma getTagMap_Returned_inv (modelComponent : ModelComponent) (w w' : World) tagMap :
  getTagMap modelComponent w = (Returned tagMap, w') ->
  length tagMap = size (loadable modelComponent) /\
  NoDup (oid <$> tagMap.*1) /\
  raw <$> tagMap.*1 ≡ₚ (map_to_list (loadable modelComponent)).*1 /\
  Forall
    (fun entry =>
       tag_version entry.2 = entry.1 /\
       exists ref version,
         versions modelComponent !! raw entry.1 = Some ref /\
         objects legacyScope ref = Some version /\
         tag_snap entry.2 = createSnapFromVersion version)
    tagMap.
Proof.
  intros H.
  pose proof (getTagMap_Returned_valid _ _ _ _ H) as Hvalid.
  destruct (getTagMap_entries legacyScope runtime modelComponent w Hvalid)
    as (tagMap' & w'' & H' & Hlen & _ & Hnd & Hperm & Hall).
  rewrite H in H'. injection H' as <- <-. done.
Qed.

(** What a returned component is made of, in terms of the store. *)
Lemma get_Returned_parts (id : ComponentID) (w w' : World) (c : Component) :
  get id w = (Returned (Some c), w') ->
  exists modelComponent ref version consumerComponent,
    lookup_ (_legacy (component_id c)) = Some modelComponent /\
    versions modelComponent !! latest modelComponent = Some ref /\
    objects legacyScope ref = Some version /\
    scope_getConsumerComponent legacyScope (_legacy (component_id c))
      = Returned consumerComponent /\
    head c = createSnapFromVersion version /\
    state c = mkState (mkConfig (mainFile version) (extensions consumerComponent))
                (fromVinyls (files consumerComponent)) (dependencies version)
                consumerComponent /\
    host c = this_name legacyScope /\
    exists w2, getTagMap modelComponent w2 = (Returned (tags c), w').
Proof.
  intros H.
  apply get_Returned_assemble in H as (modelComponent & w1 & Hfound & H).
  apply assemble_Returned_inv in H
    as (ref & version & cc & tagMap & w2 & Hlatest & Hobj & Hcc & Htags & Hc).
  exists modelComponent, ref, version, cc.
  rewrite Hc in *. simpl in *. split_and!; try done. by exists w2.
Qed.

(** X5. A component [get] returns was assembled from the model component the
    store holds under the identifier the component carries: its head is the
    snap of the record of that model component's latest version, its
    dependencies and main file are those of that record, and it has exactly
    one tag per version whose record the store loads, under keys that are
    pairwise different. *)
Theorem get_component_from_store (id : ComponentID) (w w' : World) (c : Component) :
  get id w = (Returned (Some c), w') ->
  exists modelComponent ref version,
    lookup_ (_legacy (component_id c)) = Some modelComponent /\
    versions modelComponent !! latest modelComponent = Some ref /\
    objects legacyScope ref = Some version /\
    head c = createSnapFromVersion version /\
    state_dependencies (state c) = dependencies version /\
    main (config (state c)) = mainFile version /\
    host c = this_name legacyScope /\
    length (tags c) = size (loadable modelComponent) /\
    NoDup (oid <$> (tags c).*1).
Proof.
  intros H.
  apply get_Returned_parts in H
    as (modelComponent & ref & version & cc & Hfound & Hlatest & Hobj & Hcc &
        Hhead & Hstate & Hhost & w2 & Htags).
  apply getTagMap_Returned_inv in Htags as (Hlen & Hnd & _ & _).
  exists modelComponent, ref, version. rewrite Hstate. split_and!; done.
Qed.

(** X6. The head of a component [get] returns is always one of its tags: the
    tag map has an entry for the latest version string of the model
    component, and the snap of that tag is the head. *)
Theorem get_head_is_tagged (id : ComponentID) (w w' : World) (c : Component) :
  get id w = (Returned (Some c), w') ->
  exists modelComponent entry,
    lookup_ (_legacy (component_id c)) = Some modelComponent /\
    entry ∈ tags c /\
    raw entry.1 = latest modelComponent /\
    tag_version entry.2 = entry.1 /\
    tag_snap entry.2 = head c.
Proof.
  intros H.
  apply get_Returned_parts in H
    as (modelComponent & ref & version & cc & Hfound & Hlatest & Hobj & Hcc &
        Hhead & Hstate & Hhost & w2 & Htags).
  apply getTagMap_Returned_inv in Htags as (_ & _ & Hperm & Hall).
  assert (latest modelComponent ∈ raw <$> (tags c).*1) as Hin.
  { rewrite Hperm. apply list_elem_of_fmap. exists (latest modelComponent, ref).
    split; [done|]. apply elem_of_map_to_list, map_lookup_filter_Some.
    simpl. rewrite Hobj. eauto. }
  apply list_elem_of_fmap in Hin as (semver & Hraw & Hin).
  apply list_elem_of_fmap in Hin as (entry & -> & Hin).
  rewrite Forall_forall in Hall.
  destruct (Hall _ Hin) as (Hkey & ref' & version' & Hk & Hv & Hsnap).
  exists modelComponent, entry. split_and!; try done.
  rewrite <- Hraw in Hk. rewrite Hlatest in Hk. injection Hk as <-.
  rewrite Hobj in Hv. injection Hv as <-. by rewrite Hhead.
Qed.

End TagMapFailure.

Section StateByHash.

Context {Extensions Vinyl Dependencies Capsule : Type}.
Context (legacyScope : @LegacyScope Extensions Vinyl Dependencies)
        (runtime : @Runtime Extensions Vinyl Dependencies Capsule).

Local Abbreviation World := (@World Extensions Vinyl Dependencies Capsule).
Local Abbreviation Component := (@Component Extensions Vinyl Dependencies).
Local Abbreviation get := (get legacyScope runtime).
Local Abbreviation getState := (getState (Capsule := Capsule) legacyScope).

(** X7. [getState] makes two calls, whatever their answers: the load of the
    object under the hash and the read of the consumer component; it never
    looks a model component up.  It returns the state made of the record and
    the consumer component when both are there; a failure of the consumer
    component is raised even when the hash is unknown, and an unknown hash
    with a consumer component at hand is a [TypeError], not an absent
    value. *)
Theorem getState_outcome (id : ComponentID) (hash : string) (w : World) :
  let w2 :=
    record (GetConsumerComponent (_legacy id)) (record (LoadObject (mkRef hash)) w) in
  match scope_getConsumerComponent legacyScope (_legacy id),
        objects legacyScope (mkRef hash) with
  | Thrown e, _ => getState id hash w = (Thrown e, w2)
  | Returned _, None =>
      getState id hash w =
        (Thrown (TypeError "Cannot read property 'mainFile' of null"), w2)
  | Returned consumerComponent, Some version =>
      getState id hash w =
        (Returned
           (mkState (mkConfig (mainFile version) (extensions consumerComponent))
              (fromVinyls (files consumerComponent)) (dependencies version)
              consumerComponent),
         w2)
  end.
Proof.
  unfold getState, createStateFromVersion, getConsumerComponent,
    bind, emit, lift, ret, throw.
  destruct (scope_getConsumerComponent legacyScope (_legacy id)) as [cc|e];
    destruct (objects legacyScope (mkRef hash)) as [version|]; reflexivity.
Qed.

(** X8. In a store that keeps every record under its own hash, the state of
    a component [get] returns is the state [getState] returns for the
    identifier the component carries and the hash of its head. *)
Theorem getState_of_head (id : ComponentID) (w w' w2 : World) (c : Component) :
  (forall ref version, objects legacyScope ref = Some version -> version_hash version = ref) ->
  get id w = (Returned (Some c), w') ->
  getState (component_id c) (snap_hash (head c)) w2 =
    (Returned (state c),
     record (GetConsumerComponent (_legacy (component_id c)))
       (record (LoadObject (mkRef (snap_hash (head c)))) w2)).
Proof.
  intros Hstore H.
  apply get_Returned_parts in H
    as (modelComponent & ref & version & cc & Hfound & Hlatest & Hobj & Hcc &
        Hhead & Hstate & Hhost & _).
  assert (mkRef (snap_hash (head c)) = ref) as Href.
  { rewrite Hhead. simpl. rewrite (Hstore _ _ Hobj). by destruct ref. }
  unfold getState, createStateFromVersion, getConsumerComponent,
    bind, emit, lift, ret.
  by rewrite Href, Hstate, Hobj, Hcc.
Qed.

End StateByHash.

Section Batches.

Context {Extensions Vinyl Dependencies Capsule : Type}.
Context (legacyScope : @LegacyScope Extensions Vinyl Dependencies)
        (runtime : @Runtime Extensions Vinyl Dependencies Capsule).

Local Abbreviation M := (@M Extensions Vinyl Dependencies Capsule).
Local Abbreviation World := (@World Extensions Vinyl Dependencies Capsule).
Local Abbreviation Component := (@Component Extensions Vinyl Dependencies).
Local Abbreviation get := (get legacyScope runtime).
Local Abbreviation getMany := (getMany legacyScope runtime).
Local Abbreviation getOrThrow := (getOrThrow legacyScope runtime).
Local Abbreviation list_ := (list_ legacyScope runtime).
Local Abbreviation listing := (listing legacyScope).
Local Abbreviation loadExtensions := (loadExtensions legacyScope runtime).
Local Abbreviation listed_in w := (record (Capsule := Capsule) ListModelComponents w).

Lemma mapSeries_app {A B} (f : A -> M B) (l1 l2 : list A) (w : World) :
  mapSeries f (l1 ++ l2) w =
    match mapSeries f l1 w with
    | (Returned b1, w1) =>
        match mapSeries f l2 w1 with
        | (Returned b2, w2) => (Returned (b1 ++ b2), w2)
        | (Thrown e, w2) => (Thrown e, w2)
        end
    | (Thrown e, w1) => (Thrown e, w1)
    end.
Proof.
  revert w. induction l1 as [|a l1 IH]; intros w; simpl.
  - unfold ret. by destruct (mapSeries f l2 w) as [[b2|e] w2].
  - unfold bind at 1 3. destruct (f a w) as [[b|e] w1]; [|done].
    unfold bind, ret. rewrite IH.
    destruct (mapSeries f l1 w1) as [[b1|e] w2]; [|done].
    by destruct (mapSeries f l2 w2) as [[b2|e] w3].
Qed.

(** X9. [getMany] on two lists put end to end is [getMany] on the first,
    then [getMany] on the second in the world the first left, the components
    of the first followed by those of the second; an exception in the first
    batch means the second is never started. *)
Theorem getMany_app (ids1 ids2 : list (option ComponentID)) (w : World) :
  getMany (ids1 ++ ids2) w =
    match getMany ids1 w with
    | (Returned cs1, w1) =>
        match getMany ids2 w1 with
        | (Returned cs2, w2) => (Returned (cs1 ++ cs2), w2)
        | (Thrown e, w2) => (Thrown e, w2)
        end
    | (Thrown e, w1) => (Thrown e, w1)
    end.
Proof.
  unfold getMany, Lodash.compact, bind, ret.
  rewrite omap_app, mapSeries_app.
  destruct (mapSeries get (omap id ids1) w) as [[rs1|e] w1]; [|done].
  destruct (mapSeries get (omap id ids2) w1) as [[rs2|e] w2]; [|done].
  by rewrite omap_app.
Qed.

(** X10. [getOrThrow] raises exactly the exceptions of [get], unchanged, and
    [ComponentNotFound] for the identifier it was given where [get] returns
    the absent value. *)
Theorem getOrThrow_Thrown_iff (id : ComponentID) (w w' : World) e :
  getOrThrow id w = (Thrown e, w') <->
  get id w = (Thrown e, w') \/
  (get id w = (Returned None, w') /\ e = ComponentNotFound id).
Proof.
  unfold getOrThrow, bind, ret, throw.
  destruct (get id w) as [[[c|]|e0] w1]; split.
  - discriminate.
  - intros [[=]|[[=] _]].
  - intros [= <- <-]. by right.
  - intros [[=]|[[= <-] ->]]. done.
  - intros [= <- <-]. by left.
  - intros [[= <- <-]|[[=] _]]. done.
Qed.

Lemma slice_length {A} (l : list A) (start end_ : Z) :
  (length (Lodash.slice l start end_) <= length l)%nat.
Proof.
  destruct l as [|a l]; [done|].
  unfold Lodash.slice, Lodash.baseSlice.
  rewrite length_take, length_drop. lia.
Qed.

Lemma listing_length includeCache :
  (length (listing includeCache) <= length (scope_list legacyScope))%nat.
Proof.
  unfold listing, listed. rewrite length_map.
  destruct includeCache; [done|]. apply List.filter_length_le.
Qed.

(** With a positive length asked for, [slice] gives no more than that
    length, wherever the start is. *)
Lemma slice_length_limit {A} (l : list A) (start n : Z) :
  0 < n -> Z.of_nat (length (Lodash.slice l start (start + n))) <= n.
Proof.
  intros Hn. destruct l as [|a l]; [simpl; lia|].
  unfold Lodash.slice, Lodash.baseSlice.
  set (xs := a :: l). set (len := Z.of_nat (length xs)).
  rewrite length_take, length_drop. fold len.
  assert (Z.of_nat (length xs) = len) as Hlen by done.
  destruct (start <? 0) eqn:E1; destruct (- start >? len) eqn:E2;
    destruct (start + n >? len) eqn:E3;
    repeat match goal with
           | |- context [?a <? ?b] => destruct (a <? b) eqn:?
           | |- context [?a >? ?b] => destruct (a >? b) eqn:?
           end; lia.
Qed.

(** X11. [list] never returns more components than the page of identifiers
    it hydrates.  With a filter whose limit is not [0] that is no more than
    the slice of the listing from [offset] to [offset + limit] holds, and,
    when the limit is positive, no more than [limit], wherever the offset
    is; without a filter, or with a limit of [0], it is no more than the
    whole listing holds.  In every case it is no more than the store
    lists. *)
Theorem list_bounded (filter : option Filter) (includeCache : bool) (w w' : World)
    (cs : list Component) :
  list_ filter includeCache w = (Returned cs, w') ->
  (forall f, filter = Some f -> limit f <> 0 ->
     (length cs
      <= length (Lodash.slice (listing includeCache) (offset f) (offset f + limit f)))%nat) /\
  (forall f, filter = Some f -> 0 < limit f -> Z.of_nat (length cs) <= limit f) /\
  (length cs <= length (listing includeCache))%nat /\
  (length cs <= length (scope_list legacyScope))%nat.
Proof.
  intros H. rewrite list_unfold in H. apply getMany_length in H.
  rewrite compact_Some in H.
  assert (forall f, filter = Some f -> limit f <> 0 ->
            (length cs
             <= length (Lodash.slice (listing includeCache) (offset f)
                          (offset f + limit f)))%nat) as Hpage.
  { intros f -> Hlimit. unfold Js.truthy_num in H.
    by destruct (Z.eqb_spec (limit f) 0) as [E|_]. }
  assert (length cs <= length (listing includeCache))%nat as Hlen.
  { etrans; [exact H|]. destruct filter as [f|]; [|done].
    destruct (Js.truthy_num (limit f)); [apply slice_length|done]. }
  split_and!; [done| |done|].
  - intros f Hf Hlimit.
    pose proof (Hpage f Hf ltac:(lia)) as Hle.
    pose proof (slice_length_limit (listing includeCache) (offset f) (limit f) Hlimit).
    lia.
  - pose proof (listing_length includeCache). lia.
Qed.

(** X12. With or without the cache, every component [list] returns bears the
    name and the latest version of a model component the store lists, which
    [exists] accepts when the cache is left out. *)
Theorem list_ids_from_store (filter : option Filter) (includeCache : bool) (w w' : World)
    (cs : list Component) :
  list_ filter includeCache w = (Returned cs, w') ->
  Forall
    (fun c =>
       exists modelComponent,
         modelComponent ∈ scope_list legacyScope /\
         bid_name (_legacy (component_id c)) = mc_name modelComponent /\
         bid_version (_legacy (component_id c)) = Some (latest modelComponent) /\
         (includeCache = false -> exists_ legacyScope modelComponent = true))
    cs.
Proof.
  rewrite list_unfold. intros H.
  apply getMany_Returned_iff in H as (rs & Hrs & ->).
  rewrite compact_Some in Hrs.
  apply Forall_forall. intros c Hc. apply elem_of_compact in Hc.
  destruct (Resolved_elem_of _ _ _ _ _ _ _ Hrs Hc) as (id & wa & wb & Hid & Hget).
  assert (id ∈ listing includeCache) as Hin.
  { destruct filter as [f|]; [|done].
    destruct (Js.truthy_num (limit f)); [|done].
    by eapply slice_subseteq. }
  unfold listing in Hin.
  apply list_elem_of_fmap in Hin as (modelComponent & -> & Hmc).
  exists modelComponent.
  assert (modelComponent ∈ scope_list legacyScope /\
          (includeCache = false -> exists_ legacyScope modelComponent = true))
    as [Hlisted Hexists].
  { unfold listed in Hmc. destruct includeCache; [done|].
    apply list_elem_of_In, filter_In in Hmc as [Hmc Hex].
    by apply list_elem_of_In in Hmc. }
  apply get_Returned_id in Hget as [->|(_ & _ & ->)]; by split_and!.
Qed.

End Batches.

Section Edges.

Context {Extensions Vinyl Dependencies Capsule : Type}.
Context (legacyScope : @LegacyScope Extensions Vinyl Dependencies)
        (runtime : @Runtime Extensions Vinyl Dependencies Capsule).

Local Abbreviation World := (@World Extensions Vinyl Dependencies Capsule).
Local Abbreviation Component := (@Component Extensions Vinyl Dependencies).
Local Abbreviation Version := (@Version Dependencies).
Local Abbreviation get := (get legacyScope runtime).
Local Abbreviation getMany := (getMany legacyScope runtime).
Local Abbreviation list_ := (list_ legacyScope runtime).
Local Abbreviation listing := (listing legacyScope).
Local Abbreviation loadExtensions := (loadExtensions legacyScope runtime).
Local Abbreviation listed_in w := (record (Capsule := Capsule) ListModelComponents w).

(** X13. A negative offset counts from the end of the listing, as [slice]
    has it.  When the window so designated ends before the end of the
    listing, [list] hydrates it: [limit] identifiers from the one that is
    [- offset] before the end.  But when [offset + limit] is [0], the end of
    the window is index [0] and not the end of the listing: asking for the
    last [k] components of a longer listing with [offset = - k] and
    [limit = k] hydrates nothing. *)
Theorem list_negative_offset (filter : Filter) (includeCache : bool) (w : World) :
  offset filter < 0 -> 0 < limit filter ->
  let len := Z.of_nat (length (listing includeCache)) in
  (- offset filter <= len -> offset filter + limit filter < 0 ->
   list_ (Some filter) includeCache w =
     getMany
       (Some <$> take (Z.to_nat (limit filter))
                   (drop (Z.to_nat (len + offset filter)) (listing includeCache)))
       (listed_in w)) /\
  (- offset filter < len -> offset filter + limit filter = 0 ->
   list_ (Some filter) includeCache w = (Returned [], listed_in w)).
Proof.
  intros Hoff Hlim len.
  assert (Js.truthy_num (limit filter) = true) as Htruthy.
  { unfold Js.truthy_num. destruct (Z.eqb_spec (limit filter) 0); [lia|done]. }
  split.
  - intros Hin Hend. rewrite list_unfold, Htruthy. do 2 f_equal.
    destruct (listing includeCache) as [|a l] eqn:E; [simpl in *; lia|].
    unfold Lodash.slice, Lodash.baseSlice. fold len.
    destruct (offset filter <? 0) eqn:E1; [|lia].
    destruct (- offset filter >? len) eqn:E2; [lia|].
    destruct (offset filter + limit filter >? len) eqn:E3; [lia|].
    destruct (offset filter + limit filter <? 0) eqn:E4; [|lia].
    destruct (len + offset filter >? offset filter + limit filter + len) eqn:E5; [lia|].
    do 2 f_equal. lia.
  - intros Hin Hend. rewrite list_unfold, Htruthy.
    assert (Lodash.slice (listing includeCache) (offset filter)
              (offset filter + limit filter) = []) as ->; [|reflexivity].
    destruct (listing includeCache) as [|a l] eqn:E; [done|].
    unfold Lodash.slice, Lodash.baseSlice. fold len.
    destruct (offset filter <? 0) eqn:E1; [|lia].
    destruct (- offset filter >? len) eqn:E2; [lia|].
    rewrite Hend.
    destruct (0 >? len) eqn:E3; [lia|]. simpl.
    destruct (len + offset filter >? 0) eqn:E5; [|lia].
    by rewrite take_0.
Qed.

(** X14. [loadExtensions] gives up at the first failure and goes no further:
    an exception of [get] is raised before the isolator is called, a failure
    of the isolator before the loader is called, and a failure of the loader
    is raised as it is. *)
Theorem loadExtensions_failures (extensions : ExtensionDataList) (w : World) :
  extensionsBitIds extensions <> [] ->
  let ids := map fromLegacy (extensionsBitIds extensions) in
  (forall e w',
     getMany (Some <$> ids) w = (Thrown e, w') ->
     loadExtensions extensions w = (Thrown e, w')) /\
  (forall rs w1 e,
     Resolved legacyScope runtime w ids rs w1 ->
     isolator_isolateComponents runtime (Lodash.compact rs) = Thrown e ->
     loadExtensions extensions w =
       (Thrown e, record (IsolateComponents (Lodash.compact rs)) w1)) /\
  (forall rs w1 capsules e,
     Resolved legacyScope runtime w ids rs w1 ->
     isolator_isolateComponents runtime (Lodash.compact rs) = Returned capsules ->
     harmony_loadRequireableExtensions runtime (map fromCapsule capsules) = Thrown e ->
     loadExtensions extensions w =
       (Thrown e,
        record (LoadRequireableExtensions (map fromCapsule capsules))
          (record (IsolateComponents (Lodash.compact rs)) w1))).
Proof.
  intros Hne ids.
  assert (forall rs w1,
            Resolved legacyScope runtime w ids rs w1 ->
            getMany (Some <$> ids) w = (Returned (Lodash.compact rs), w1)) as Hmany.
  { intros rs w1 Hrs. apply getMany_Returned_iff. exists rs. by rewrite compact_Some. }
  split_and!.
  - intros e w' H. rewrite loadExtensions_unfold by done. by apply bind_Thrown.
  - intros rs w1 e Hrs Hiso. rewrite loadExtensions_unfold by done.
    rewrite (bind_Returned _ _ _ _ _ (Hmany _ _ Hrs)).
    unfold bind, isolateComponents, emit, lift, bind. by rewrite Hiso.
  - intros rs w1 capsules e Hrs Hiso Hload. rewrite loadExtensions_unfold by done.
    rewrite (bind_Returned _ _ _ _ _ (Hmany _ _ Hrs)).
    unfold bind, isolateComponents, loadRequireableExtensions, emit, lift, bind.
    by rewrite Hiso, Hload.
Qed.

(** What [a || d] is not: never empty when [d] is not, and the value of [a]
    whenever it is not [d]. *)
Lemma or_else_not_empty (a : option string) (d : string) :
  d <> EmptyString -> Js.or_else a d <> EmptyString.
Proof.
  intros Hd. destruct a as [s|]; [|done]. unfold Js.or_else, Js.truthy_str.
  by destruct (String.eqb_spec s EmptyString).
Qed.

Lemma or_else_not_default (a : option string) (d : string) :
  Js.or_else a d <> d -> a = Some (Js.or_else a d).
Proof.
  destruct a as [s|]; [|done]. unfold Js.or_else, Js.truthy_str.
  by destruct (String.eqb_spec s EmptyString).
Qed.

(** X15. The author of a snap never has an empty name or an empty address:
    an empty string in the log is replaced by the default, ["unknown"] for
    the name and ["unknown@anywhere"] for the address, as a missing one is;
    and a name or an address of the snap that is not the default is the one
    the log holds. *)
Theorem createSnapFromVersion_author_not_empty (version : Version) :
  let snap := createSnapFromVersion runtime version in
  displayName (author snap) <> EmptyString /\
  author_email (author snap) <> EmptyString /\
  (username (log version) = Some EmptyString -> displayName (author snap) = "unknown") /\
  (email (log version) = Some EmptyString ->
   author_email (author snap) = "unknown@anywhere") /\
  (displayName (author snap) <> "unknown" ->
   username (log version) = Some (displayName (author snap))) /\
  (author_email (author snap) <> "unknown@anywhere" ->
   email (log version) = Some (author_email (author snap))).
Proof.
  simpl. split_and!.
  - by apply or_else_not_empty.
  - by apply or_else_not_empty.
  - by intros ->.
  - by intros ->.
  - apply or_else_not_default.
  - apply or_else_not_default.
Qed.

End Edges.

(** ** The registration of callbacks *)

(** X16. Registering callbacks with [onTag] one after the other leaves them
    in the array of the legacy scope after those already there, in the order
    of registration, and hands them to the tag registry in that order; it
    leaves the post-export side untouched.  A registration with [onTag] and
    one with [onPostExport] can be made in either order. *)
Theorem onTag_registrations {F Registry} (register : F -> Registry -> Registry)
    (tagFns : list F) (this : Hooks F Registry) :
  let after := foldl (fun hooks tagFn => onTag register tagFn hooks) this tagFns in
  legacy_onTag after = legacy_onTag this ++ tagFns /\
  tagRegistry after = foldl (fun registry tagFn => register tagFn registry)
                        (tagRegistry this) tagFns /\
  legacy_onPostExport after = legacy_onPostExport this /\
  postExportRegistry after = postExportRegistry this /\
  (forall tagFn postExportFn,
     onTag register tagFn (onPostExport register postExportFn this) =
     onPostExport register postExportFn (onTag register tagFn this)).
Proof.
  simpl. split_and!; [..|done];
    revert this; induction tagFns as [|tagFn tagFns IH]; intros this; simpl;
    rewrite ?app_nil_r; try done; rewrite IH; simpl; by rewrite <- ?app_assoc.
Qed.

(** * Properties of the script that repairs declaration files *)

(** ** Strings *)

Lemma str_app_cons (c : ascii) (a b : string) : String c a +:+ b = String c (a +:+ b).
Proof. reflexivity. Qed.

Lemma str_app_nil_l (b : string) : "" +:+ b = b.
Proof. reflexivity. Qed.

(** Unfolds the appends whose first argument is known. *)
Local Ltac str_simpl := simpl; rewrite ?str_app_cons, ?str_app_nil_l; simpl.

Lemma str_app_nil_r (a : string) : a +:+ "" = a.
Proof. induction a as [|c a IH]; str_simpl; [done|]. by f_equal. Qed.

Lemma str_app_assoc (a b c : string) : (a +:+ b) +:+ c = a +:+ (b +:+ c).
Proof. induction a as [|d a IH]; str_simpl; [done|]. by f_equal. Qed.

Lemma str_length_app (a b : string) :
  String.length (a +:+ b) = (String.length a + String.length b)%nat.
Proof. induction a as [|c a IH]; str_simpl; [done|]. by f_equal. Qed.

Lemma str_take_app (a b : string) : JsString.take (String.length a) (a +:+ b) = a.
Proof. induction a as [|c a IH]; str_simpl; [by destruct b|]. by f_equal. Qed.

Lemma str_drop_app (a b : string) : JsString.drop (String.length a) (a +:+ b) = b.
Proof. induction a as [|c a IH]; str_simpl; [by destruct b|]. done. Qed.

Lemma str_take_drop (n : nat) (s : string) : JsString.take n s +:+ JsString.drop n s = s.
Proof.
  revert s. induction n as [|n IH]; intros [|c s]; str_simpl; try done.
  by f_equal.
Qed.

Lemma str_length_take (n : nat) (s : string) :
  String.length (JsString.take n s) = (n `min` String.length s)%nat.
Proof.
  revert s. induction n as [|n IH]; intros [|c s]; str_simpl; try done.
  by f_equal.
Qed.

Lemma str_length_drop (n : nat) (s : string) :
  String.length (JsString.drop n s) = (String.length s - n)%nat.
Proof.
  revert s. induction n as [|n IH]; intros [|c s]; str_simpl; try done.
Qed.

Lemma str_take_all (n : nat) (s : string) :
  (String.length s <= n)%nat -> JsString.take n s = s.
Proof.
  revert s. induction n as [|n IH]; intros [|c s]; str_simpl; try done; [lia|].
  intros H. rewrite IH; [done|lia].
Qed.

Lemma str_drop_drop (n m : nat) (s : string) :
  JsString.drop n (JsString.drop m s) = JsString.drop (m + n) s.
Proof.
  revert s. induction m as [|m IH]; intros s; simpl; [done|].
  destruct s as [|c s]; [by destruct n|]. apply IH.
Qed.

Lemma str_drop_app_l (n : nat) (a b : string) :
  (n <= String.length a)%nat -> JsString.drop n (a +:+ b) = JsString.drop n a +:+ b.
Proof.
  revert a. induction n as [|n IH]; intros [|c a]; str_simpl; try done; [lia|].
  intros H. apply IH. lia.
Qed.

(** [substring] takes the middle of three pieces by their lengths. *)
Lemma substring_middle (a b c : string) :
  JsString.substring (a +:+ b +:+ c)
    (Z.of_nat (String.length a)) (Z.of_nat (String.length a + String.length b)) = b.
Proof.
  unfold JsString.substring. rewrite !str_length_app.
  set (la := String.length a). set (lb := String.length b). set (lc := String.length c).
  replace (Z.to_nat _) with lb by lia.
  replace (Z.to_nat _) with la by lia.
  subst la lb. by rewrite str_drop_app, str_take_app.
Qed.

Lemma startsWith_app (p r : string) : JsString.startsWith (p +:+ r) p = true.
Proof.
  induction p as [|c p IH]; str_simpl; [done|].
  by rewrite Ascii.eqb_refl, IH.
Qed.

Lemma startsWith_inv (s p : string) :
  JsString.startsWith s p = true -> exists r, s = p +:+ r.
Proof.
  revert s. induction p as [|c p IH]; intros s; simpl; [by exists s|].
  destruct s as [|d s]; [done|].
  intros [Hc Hp]%andb_true_iff. apply Ascii.eqb_eq in Hc as ->.
  destruct (IH _ Hp) as [r ->]. by exists r.
Qed.

Lemma startsWith_app_l (s p r : string) :
  JsString.startsWith s (p +:+ r) = true -> JsString.startsWith s p = true.
Proof.
  intros [k ->]%startsWith_inv. rewrite str_app_assoc. apply startsWith_app.
Qed.

(** Whether a pattern no longer than [p] starts [p +:+ post] is a matter of
    [p] alone. *)
Lemma startsWith_short (p' p post : string) :
  (String.length p' <= String.length p)%nat ->
  JsString.startsWith (p +:+ post) p' = JsString.startsWith p p'.
Proof.
  revert p. induction p' as [|c p' IH]; intros p H; simpl; [done|].
  destruct p as [|d p]; str_simpl; simpl in *; [lia|].
  destruct (Ascii.eqb c d); simpl; [|done]. apply IH. lia.
Qed.

(** *** First occurrences *)

Lemma find_Some_inv (p s : string) (i : nat) :
  JsString.find p s = Some i ->
  (i <= String.length s)%nat /\
  JsString.startsWith (JsString.drop i s) p = true /\
  forall j, (j < i)%nat -> JsString.startsWith (JsString.drop j s) p = false.
Proof.
  revert i. induction s as [|c s IH]; intros i; simpl.
  - destruct (JsString.startsWith "" p) eqn:E; [|done].
    intros [= <-]. split_and!; [done..|]. intros j Hj. lia.
  - destruct (JsString.startsWith (String c s) p) eqn:E.
    + intros [= <-]. split_and!; [lia|done|]. intros j Hj. lia.
    + destruct (JsString.find p s) as [i'|] eqn:Hf; [|done].
      intros [= <-]. destruct (IH _ eq_refl) as (Hlen & Hat & Hmin).
      split_and!; [lia|done|].
      intros [|j] Hj; simpl; [done|]. apply Hmin. lia.
Qed.

Lemma find_None_inv (p s : string) (j : nat) :
  JsString.find p s = None -> JsString.startsWith (JsString.drop j s) p = false.
Proof.
  revert j. induction s as [|c s IH]; intros j; simpl.
  - destruct (JsString.startsWith "" p) eqn:E; [done|]. by destruct j.
  - destruct (JsString.startsWith (String c s) p) eqn:E; [done|].
    destruct (JsString.find p s) as [i'|] eqn:Hf; [done|].
    intros _. destruct j as [|j]; simpl; [done|]. by apply IH.
Qed.

Lemma find_first (p s : string) (i : nat) :
  (i <= String.length s)%nat ->
  JsString.startsWith (JsString.drop i s) p = true ->
  (forall j, (j < i)%nat -> JsString.startsWith (JsString.drop j s) p = false) ->
  JsString.find p s = Some i.
Proof.
  revert s. induction i as [|i IH]; intros s Hlen Hat Hmin.
  - destruct s as [|c s]; simpl in *; by rewrite Hat.
  - destruct s as [|c s]; simpl in *; [lia|].
    pose proof (Hmin 0%nat ltac:(lia)) as H0. simpl in H0. rewrite H0.
    rewrite (IH s); [done|lia|done|].
    intros j Hj. apply (Hmin (S j)). lia.
Qed.

(** A pattern is border free when none of its proper suffixes starts it. *)
Lemma no_straddle (p y p' post : string) :
  (forall u v, p = u +:+ v -> u <> "" -> v <> "" -> JsString.startsWith p v = false) ->
  (exists u, p = u +:+ p' /\ (y = "" -> u <> "")) ->
  JsString.startsWith y p' = false ->
  JsString.startsWith (y +:+ p +:+ post) p' = false.
Proof.
  intros Hfree. revert p'. induction y as [|d y IH]; intros p' (u & Hp & Hu) Hy.
  - rewrite str_app_nil_l. destruct p' as [|c p']; [done|].
    rewrite startsWith_short.
    + apply (Hfree u (String c p')); [done|by apply Hu|done].
    + rewrite Hp, str_length_app. lia.
  - destruct p' as [|c p']; [done|]. rewrite str_app_cons. simpl in *.
    destruct (Ascii.eqb c d); simpl in *; [|done].
    apply IH; [|done]. exists (u +:+ String c ""). split.
    + by rewrite str_app_assoc.
    + intros _. by destruct u.
Qed.

(** The first occurrence of a border-free pattern after a text that does not
    hold it is right after that text. *)
Lemma find_app_first (p x post : string) :
  (forall u v, p = u +:+ v -> u <> "" -> v <> "" -> JsString.startsWith p v = false) ->
  JsString.find p x = None ->
  JsString.find p (x +:+ p +:+ post) = Some (String.length x).
Proof.
  intros Hfree Hx. apply find_first.
  - rewrite str_length_app. lia.
  - rewrite str_drop_app. apply startsWith_app.
  - intros j Hj. rewrite str_drop_app_l by lia.
    apply no_straddle; [done| |by apply find_None_inv].
    exists "". split; [done|]. intros Hempty.
    assert (String.length (JsString.drop j x) = 0%nat) as Hlen by (by rewrite Hempty).
    rewrite str_length_drop in Hlen. lia.
Qed.

(** ** The two literals *)

(** Peels one character off the first piece of a split of a known string. *)
Local Ltac peel H u :=
  destruct u as [|? u];
  [ rewrite str_app_nil_l in H; subst; first [done | reflexivity]
  | rewrite str_app_cons in H; first [discriminate H | injection H as _ H] ].

Lemma import_open_border_free (u v : string) :
  DtsFix.import_open = u +:+ v -> u <> "" -> v <> "" ->
  JsString.startsWith DtsFix.import_open v = false.
Proof.
  intros H Hu Hv.
  let t := eval vm_compute in DtsFix.import_open in
  change DtsFix.import_open with t in *.
  do 9 (try peel H u).
Qed.

Lemma import_close_border_free (u v : string) :
  DtsFix.import_close = u +:+ v -> u <> "" -> v <> "" ->
  JsString.startsWith DtsFix.import_close v = false.
Proof.
  intros H Hu Hv.
  let t := eval vm_compute in DtsFix.import_close in
  change DtsFix.import_close with t in *.
  do 4 (try peel H u).
Qed.

(** ** A line with an inline import *)

Lemma includes_false (s p : string) :
  JsString.includes s p = false -> JsString.find p s = None.
Proof.
  unfold JsString.includes. intros H%bool_decide_eq_false.
  destruct (JsString.find p s); [|done]. destruct H. eauto.
Qed.

Lemma includes_true (s p : string) (i : nat) :
  JsString.find p s = Some i -> JsString.includes s p = true.
Proof. intros H. unfold JsString.includes. rewrite H. apply bool_decide_eq_true. eauto. Qed.

Section InlineImport.

(** The line made of [pre], an inline import of [lib] and [post], in which
    that inline import is the first one and its closing mark the first of the
    line. *)
Context (pre lib post : string).
Context (Hopen : JsString.includes pre DtsFix.import_open = false).
Context (Hclose :
  JsString.includes (pre +:+ DtsFix.import_open +:+ lib) DtsFix.import_close = false).

Local Abbreviation line :=
  (pre +:+ DtsFix.import_open +:+ lib +:+ DtsFix.import_close +:+ post).

Lemma inline_find_open :
  JsString.find DtsFix.import_open line = Some (String.length pre).
Proof.
  apply find_app_first; [apply import_open_border_free|by apply includes_false].
Qed.

Lemma inline_find_close :
  JsString.find DtsFix.import_close line
  = Some (String.length (pre +:+ DtsFix.import_open +:+ lib)).
Proof.
  replace line
    with ((pre +:+ DtsFix.import_open +:+ lib) +:+ DtsFix.import_close +:+ post)
    by (by rewrite !str_app_assoc).
  apply find_app_first; [apply import_close_border_free|by apply includes_false].
Qed.

Lemma inline_invalid_substring :
  DtsFix.getInvalidSubstring line
  = DtsFix.import_open +:+ lib +:+ DtsFix.import_close.
Proof.
  unfold DtsFix.getInvalidSubstring, JsString.indexOf.
  rewrite inline_find_open, inline_find_close.
  replace line
    with (pre +:+ (DtsFix.import_open +:+ lib +:+ DtsFix.import_close) +:+ post)
    by (by rewrite !str_app_assoc).
  etrans;
    [|exact (substring_middle pre
               (DtsFix.import_open +:+ lib +:+ DtsFix.import_close) post)].
  f_equal; rewrite !str_length_app; lia.
Qed.

Lemma inline_fixed : DtsFix.fixedOrReturnLine line = pre +:+ post.
Proof.
  unfold DtsFix.fixedOrReturnLine.
  rewrite (includes_true _ _ _ inline_find_open). simpl.
  rewrite inline_invalid_substring.
  set (inv := DtsFix.import_open +:+ lib +:+ DtsFix.import_close).
  assert (line = pre +:+ inv +:+ post) as Hline by (subst inv; by rewrite !str_app_assoc).
  assert (JsString.find inv line = Some (String.length pre)) as Hfind.
  { apply find_first.
    - rewrite !str_length_app. lia.
    - rewrite Hline, str_drop_app. apply startsWith_app.
    - intros j Hj.
      destruct (JsString.startsWith (JsString.drop j line) inv) eqn:E; [|done].
      apply startsWith_app_l in E.
      destruct (find_Some_inv _ _ _ inline_find_open) as (_ & _ & Hmin).
      by rewrite (Hmin j Hj) in E. }
  unfold JsString.replace. rewrite Hfind, str_app_nil_l.
  rewrite Hline at 1. rewrite str_take_app. f_equal.
  replace line with ((pre +:+ inv) +:+ post) by (by rewrite Hline, str_app_assoc).
  rewrite <- str_length_app. apply str_drop_app.
Qed.

Lemma inline_lib : DtsFix.getLibName line = lib.
Proof.
  unfold DtsFix.getLibName, JsString.indexOf.
  rewrite inline_find_open, inline_find_close.
  replace line
    with ((pre +:+ DtsFix.import_open) +:+ lib +:+ (DtsFix.import_close +:+ post))
    by (by rewrite !str_app_assoc).
  etrans;
    [|exact (substring_middle (pre +:+ DtsFix.import_open) lib
               (DtsFix.import_close +:+ post))].
  f_equal; rewrite !str_length_app; lia.
Qed.

Lemma firstNonAlpha_app (name rest : string) (c : ascii) :
  JsString.firstNonAlpha name = None -> JsString.isAlpha c = false ->
  JsString.firstNonAlpha (name +:+ String c rest) = Some (String.length name).
Proof.
  intros Hname Hc. induction name as [|d name IH]; rewrite ?str_app_cons; simpl in *.
  - by rewrite Hc.
  - destruct (JsString.isAlpha d); [|done].
    destruct (JsString.firstNonAlpha name); [done|]. by rewrite IH.
Qed.

(** What follows the inline import, as [getExportName] sees it. *)
Lemma inline_after :
  JsString.substring_from line
    (Z.of_nat (String.length (pre +:+ DtsFix.import_open +:+ lib))
     + Z.of_nat (String.length DtsFix.import_close)) = post.
Proof.
  unfold JsString.substring_from, JsString.substring.
  set (before := pre +:+ DtsFix.import_open +:+ lib +:+ DtsFix.import_close).
  assert (line = before +:+ post) as -> by (subst before; by rewrite !str_app_assoc).
  assert (Z.of_nat (String.length (pre +:+ DtsFix.import_open +:+ lib))
          + Z.of_nat (String.length DtsFix.import_close)
          = Z.of_nat (String.length before)) as ->.
  { subst before. rewrite !str_length_app. lia. }
  rewrite str_length_app.
  replace (Z.to_nat _) with (String.length post) by lia.
  replace (Z.to_nat _) with (String.length before) by lia.
  rewrite str_drop_app. by apply str_take_all.
Qed.

End InlineImport.

(** X17. On a line whose first inline import is well formed, that is, made
    of the opening, a library name and the closing with no closing before
    it, [fixedOrReturnLine] cuts exactly that inline import out and keeps
    the rest; [isValidLine] rejects the line and [getLibName] gives the
    library name. *)
Theorem fixedOrReturnLine_inline_import (pre lib post : string) :
  JsString.includes pre DtsFix.import_open = false ->
  JsString.includes (pre +:+ DtsFix.import_open +:+ lib) DtsFix.import_close = false ->
  let line := pre +:+ DtsFix.import_open +:+ lib +:+ DtsFix.import_close +:+ post in
  DtsFix.fixedOrReturnLine line = pre +:+ post /\
  DtsFix.isValidLine line = false /\
  DtsFix.getLibName line = lib /\
  DtsFix.getInvalidSubstring line = DtsFix.import_open +:+ lib +:+ DtsFix.import_close.
Proof.
  intros Hopen Hclose line. subst line. split_and!.
  - by apply inline_fixed.
  - unfold DtsFix.isValidLine.
    by rewrite (includes_true _ _ _ (inline_find_open pre lib post Hopen)).
  - by apply inline_lib.
  - by apply inline_invalid_substring.
Qed.

(** X18. When the inline import is followed by a name made of letters and
    then by a character that is not a letter, [getExportName] gives that
    name and [getAdditionalLine] the statement that imports it from the
    library. *)
Theorem getAdditionalLine_inline_import (pre lib name rest : string) (c : ascii) :
  JsString.includes pre DtsFix.import_open = false ->
  JsString.includes (pre +:+ DtsFix.import_open +:+ lib) DtsFix.import_close = false ->
  JsString.firstNonAlpha name = None ->
  JsString.isAlpha c = false ->
  let line :=
    pre +:+ DtsFix.import_open +:+ lib +:+ DtsFix.import_close +:+ name +:+ String c rest in
  DtsFix.getExportName line = name /\
  DtsFix.getAdditionalLine line = "import { " +:+ name +:+ " } from '" +:+ lib +:+ "';".
Proof.
  intros Hopen Hclose Hname Hc line.
  assert (DtsFix.getExportName line = name) as Hexport.
  { subst line. unfold DtsFix.getExportName, DtsFix.getFirstNonAlphaIndex, JsString.indexOf.
    rewrite (inline_find_close pre lib (name +:+ String c rest) Hclose).
    rewrite (inline_after pre lib (name +:+ String c rest)).
    unfold JsString.search_nonAlpha. rewrite (firstNonAlpha_app _ _ _ Hname Hc).
    set (before := pre +:+ DtsFix.import_open +:+ lib +:+ DtsFix.import_close).
    assert (pre +:+ DtsFix.import_open +:+ lib +:+ DtsFix.import_close +:+ name
              +:+ String c rest
            = before +:+ name +:+ String c rest) as ->
      by (subst before; by rewrite !str_app_assoc).
    etrans; [|exact (substring_middle before name (String c rest))].
    subst before. f_equal; rewrite !str_length_app; lia. }
  split; [done|].
  unfold DtsFix.getAdditionalLine. rewrite Hexport. subst line.
  by rewrite (inline_lib pre lib (name +:+ String c rest) Hopen Hclose).
Qed.

(** X19. When the name that follows the inline import runs to the end of the
    line, no character that is not a letter is found, and [getExportName]
    gives the full stop that ends the closing instead of the name: the
    statement added for such a line imports [.] from the library. *)
Theorem getExportName_end_of_line (pre lib name : string) :
  JsString.includes pre DtsFix.import_open = false ->
  JsString.includes (pre +:+ DtsFix.import_open +:+ lib) DtsFix.import_close = false ->
  JsString.firstNonAlpha name = None ->
  let line := pre +:+ DtsFix.import_open +:+ lib +:+ DtsFix.import_close +:+ name in
  DtsFix.getExportName line = "." /\
  DtsFix.getAdditionalLine line = "import { . } from '" +:+ lib +:+ "';".
Proof.
  intros Hopen Hclose Hname line.
  assert (DtsFix.getExportName line = ".") as Hexport.
  { subst line. unfold DtsFix.getExportName, DtsFix.getFirstNonAlphaIndex, JsString.indexOf.
    rewrite (inline_find_close pre lib name Hclose).
    rewrite (inline_after pre lib name).
    unfold JsString.search_nonAlpha. rewrite Hname.
    set (before := pre +:+ DtsFix.import_open +:+ lib +:+ JsString.dquote +:+ ")").
    assert (pre +:+ DtsFix.import_open +:+ lib +:+ DtsFix.import_close +:+ name
            = before +:+ "." +:+ name) as Hline
      by (subst before; unfold DtsFix.import_close; by rewrite !str_app_assoc).
    assert (Z.of_nat (String.length (pre +:+ DtsFix.import_open +:+ lib))
            + Z.of_nat (String.length DtsFix.import_close)
            = Z.of_nat (String.length before) + 1) as ->.
    { subst before. rewrite !str_length_app. simpl. lia. }
    unfold JsString.substring. rewrite Hline, !str_length_app. simpl String.length.
    replace (Z.to_nat _) with 1%nat by lia.
    replace (Z.to_nat _) with (String.length before) by lia.
    by rewrite str_drop_app. }
  split; [done|].
  unfold DtsFix.getAdditionalLine. rewrite Hexport. subst line.
  by rewrite (inline_lib pre lib name Hopen Hclose).
Qed.

(** X20. [fixedOrReturnLine] never makes a line longer, and returns a line
    without inline import as it is. *)
Theorem fixedOrReturnLine_shrinks (line : string) :
  (String.length (DtsFix.fixedOrReturnLine line) <= String.length line)%nat /\
  (DtsFix.isValidLine line = true -> DtsFix.fixedOrReturnLine line = line).
Proof.
  unfold DtsFix.fixedOrReturnLine, DtsFix.isValidLine. split.
  - destruct (negb _); [done|]. unfold JsString.replace.
    destruct (JsString.find _ line) as [i|]; [|done].
    rewrite str_app_nil_l, str_length_app, str_length_take, str_length_drop. lia.
  - by intros ->.
Qed.

(** ** Lines *)

(** A string without line feed. *)
Local Abbreviation newlineFree s := (JsString.find JsString.newline s = None).

Lemma newlineFree_nil : newlineFree "".
Proof. reflexivity. Qed.

Lemma newlineFree_cons (c : ascii) (s : string) :
  newlineFree (String c s) <-> Ascii.eqb c "010" = false /\ newlineFree s.
Proof.
  change (JsString.find JsString.newline (String c s))
    with (if Ascii.eqb "010" c && true then Some 0%nat
          else S <$> JsString.find JsString.newline s).
  rewrite (Ascii.eqb_sym "010" c).
  destruct (Ascii.eqb c "010"); simpl.
  - split; [done|]. by intros [? _].
  - destruct (JsString.find _ s); simpl; split; try done. by intros [_ ?].
Qed.

Lemma newlineFree_app (a b : string) :
  newlineFree a -> newlineFree b -> newlineFree (a +:+ b).
Proof.
  intros Ha Hb. induction a as [|c a IH]; [done|].
  rewrite str_app_cons. apply newlineFree_cons in Ha as [Hc Ha].
  apply newlineFree_cons. split; [done|]. by apply IH.
Qed.

Lemma newlineFree_take (n : nat) (s : string) :
  newlineFree s -> newlineFree (JsString.take n s).
Proof.
  revert s. induction n as [|n IH]; intros [|c s] H; try done.
  apply newlineFree_cons in H as [Hc H]. simpl.
  apply newlineFree_cons. split; [done|]. by apply IH.
Qed.

Lemma newlineFree_drop (n : nat) (s : string) :
  newlineFree s -> newlineFree (JsString.drop n s).
Proof.
  revert s. induction n as [|n IH]; intros [|c s] H; try done.
  apply newlineFree_cons in H as [Hc H]. simpl. by apply IH.
Qed.

Lemma newlineFree_substring (s : string) (start end_ : Z) :
  newlineFree s -> newlineFree (JsString.substring s start end_).
Proof. intros H. by apply newlineFree_take, newlineFree_drop. Qed.

Lemma split_lines_nonempty (s : string) : JsString.split_lines s <> [].
Proof.
  induction s as [|c s IH]; simpl; [done|].
  destruct (Ascii.eqb c "010"); [done|].
  by destruct (JsString.split_lines s).
Qed.

Lemma join_split (s : string) : JsString.join_lines (JsString.split_lines s) = s.
Proof.
  induction s as [|c s IH]; simpl; [done|].
  pose proof (split_lines_nonempty s) as Hne.
  destruct (Ascii.eqb_spec c "010") as [->|Hc].
  - destruct (JsString.split_lines s) as [|line lines]; [done|].
    change (JsString.join_lines ("" :: line :: lines))
      with ("" +:+ JsString.newline +:+ JsString.join_lines (line :: lines)).
    by rewrite IH.
  - destruct (JsString.split_lines s) as [|line lines]; [done|].
    destruct lines as [|line' lines]; simpl in *; [by rewrite IH|].
    rewrite str_app_cons. by rewrite IH.
Qed.

Lemma split_lines_newlineFree (s : string) :
  Forall (fun line => newlineFree line) (JsString.split_lines s).
Proof.
  induction s as [|c s IH]; simpl; [by repeat constructor|].
  destruct (Ascii.eqb c "010") eqn:Hc; [by constructor|].
  pose proof (split_lines_nonempty s) as Hne.
  destruct (JsString.split_lines s) as [|line lines]; [done|].
  inversion IH; subst. constructor; [|done]. by apply newlineFree_cons.
Qed.

Lemma split_newlineFree (s : string) :
  newlineFree s -> JsString.split_lines s = [s].
Proof.
  induction s as [|c s IH]; [done|].
  intros [Hc H]%newlineFree_cons. simpl. rewrite Hc. by rewrite IH.
Qed.

Lemma split_app_newline (x t : string) :
  newlineFree x ->
  JsString.split_lines (x +:+ JsString.newline +:+ t) = x :: JsString.split_lines t.
Proof.
  induction x as [|c x IH]; [done|].
  intros [Hc H]%newlineFree_cons. rewrite str_app_cons. simpl. rewrite Hc.
  by rewrite IH.
Qed.

Lemma split_join (lines : list string) :
  lines <> [] -> Forall (fun line => newlineFree line) lines ->
  JsString.split_lines (JsString.join_lines lines) = lines.
Proof.
  induction lines as [|x lines IH]; [done|]. intros _ Hall.
  inversion Hall as [|? ? Hx Hrest]; subst.
  destruct lines as [|y lines]; [by apply split_newlineFree|].
  change (JsString.join_lines (x :: y :: lines))
    with (x +:+ JsString.newline +:+ JsString.join_lines (y :: lines)).
  rewrite split_app_newline by done. by rewrite IH.
Qed.

(** The lines of the directives and the others share out the lines. *)
Lemma splettLines_permutation (lines : list string) :
  DtsFix.openLines (DtsFix.splettLines lines)
    ++ DtsFix.closingLines (DtsFix.splettLines lines) ≡ₚ lines.
Proof.
  simpl. induction lines as [|line lines IH]; simpl; [done|].
  destruct (DtsFix.isDirective line); simpl.
  - by rewrite IH.
  - rewrite <- Permutation_middle. by rewrite IH.
Qed.

Lemma mergeLines_perm (properLines additionalLines : list string) :
  DtsFix.mergeLines properLines additionalLines ≡ₚ properLines ++ additionalLines.
Proof.
  unfold DtsFix.mergeLines.
  rewrite <- (splettLines_permutation properLines) at 3.
  rewrite <- !app_assoc. apply Permutation_app_head, Permutation_app_comm.
Qed.

Lemma fixedOrReturnLine_valid (line : string) :
  DtsFix.isValidLine line = true -> DtsFix.fixedOrReturnLine line = line.
Proof. unfold DtsFix.fixedOrReturnLine, DtsFix.isValidLine. by intros ->. Qed.

(** X21. [mergeLines] loses and invents nothing: its result is made of the
    proper lines and the additional lines, each as often as given, with the
    directives among the proper lines first, then the additional lines, then
    the other proper lines, each group in its order. *)
Theorem mergeLines_arrangement (properLines additionalLines : list string) :
  DtsFix.mergeLines properLines additionalLines ≡ₚ properLines ++ additionalLines /\
  length (DtsFix.mergeLines properLines additionalLines)
    = (length properLines + length additionalLines)%nat /\
  exists directives others,
    DtsFix.mergeLines properLines additionalLines
      = directives ++ additionalLines ++ others /\
    directives `sublist_of` properLines /\
    others `sublist_of` properLines /\
    Forall (fun line => DtsFix.isDirective line = true) directives /\
    Forall (fun line => DtsFix.isDirective line = false) others.
Proof.
  pose proof (mergeLines_perm properLines additionalLines) as Hperm.
  split_and!; [done| |].
  - by rewrite Hperm, length_app.
  - exists (List.filter DtsFix.isDirective properLines),
      (List.filter (fun line => negb (DtsFix.isDirective line)) properLines).
    clear Hperm. split_and!; [done| | | |].
    + induction properLines as [|l ls IH]; simpl; [done|].
      destruct (DtsFix.isDirective l); [by apply sublist_skip|by apply sublist_cons].
    + induction properLines as [|l ls IH]; simpl; [done|].
      destruct (DtsFix.isDirective l); simpl; [by apply sublist_cons|by apply sublist_skip].
    + apply Forall_forall. intros line Hin.
      by apply list_elem_of_In, filter_In in Hin as [_ ?].
    + apply Forall_forall. intros line Hin.
      apply list_elem_of_In, filter_In in Hin as [_ H]. by apply negb_true_iff.
Qed.

(** ** Files *)

Lemma fixedOrReturnLine_newlineFree (line : string) :
  newlineFree line -> newlineFree (DtsFix.fixedOrReturnLine line).
Proof.
  intros H. unfold DtsFix.fixedOrReturnLine. cbv zeta.
  destruct (negb _); [done|]. unfold JsString.replace.
  destruct (JsString.find (DtsFix.getInvalidSubstring line) line) as [i|]; [|done].
  rewrite str_app_nil_l.
  apply newlineFree_app; [by apply newlineFree_take|by apply newlineFree_drop].
Qed.

Lemma getAdditionalLine_newlineFree (line : string) :
  newlineFree line -> newlineFree (DtsFix.getAdditionalLine line).
Proof.
  intros H. unfold DtsFix.getAdditionalLine, DtsFix.getExportName, DtsFix.getLibName.
  cbv zeta.
  repeat (apply newlineFree_app; [first [done | by apply newlineFree_substring]|]).
  done.
Qed.

(** X22. A file in which no line holds an inline import and the directives
    come before all other lines is rewritten with the text it has: the file
    system is left as it was. *)
Theorem fixeDTSfile_clean_file (filePath text : string) (fs : gmap string string)
    (directives others : list string) :
  fs !! filePath = Some text ->
  JsString.split_lines text = directives ++ others ->
  Forall (fun line => DtsFix.isDirective line = true) directives ->
  Forall (fun line => DtsFix.isDirective line = false) others ->
  Forall (fun line => DtsFix.isValidLine line = true) (JsString.split_lines text) ->
  DtsFix.fixeDTSfile filePath fs = DtsFix.FsOk fs.
Proof.
  intros Hfile Hsplit Hdir Hothers Hvalid.
  unfold DtsFix.fixeDTSfile, DtsFix.getFileLines. rewrite Hfile.
  set (lines := JsString.split_lines text) in *.
  assert (map DtsFix.fixedOrReturnLine lines = lines) as ->.
  { clear Hsplit. induction Hvalid as [|line ls Hline _ IH]; simpl; [done|].
    rewrite IH. f_equal. by apply fixedOrReturnLine_valid. }
  assert (List.filter (fun line => negb (DtsFix.isValidLine line)) lines = []) as ->.
  { clear Hsplit. induction Hvalid as [|line ls Hline _ IH]; simpl; [done|].
    by rewrite Hline. }
  change (map DtsFix.getAdditionalLine []) with (@nil string).
  assert (DtsFix.mergeLines lines [] = lines) as ->.
  { unfold DtsFix.mergeLines. simpl. rewrite Hsplit, !List.filter_app.
    assert (List.filter DtsFix.isDirective directives = directives) as ->.
    { clear -Hdir. induction Hdir as [|l ls Hl _ IH]; simpl; [done|].
      by rewrite Hl, IH. }
    assert (List.filter DtsFix.isDirective others = []) as ->.
    { clear -Hothers. induction Hothers as [|l ls Hl _ IH]; simpl; [done|].
      by rewrite Hl. }
    assert (List.filter (fun line => negb (DtsFix.isDirective line)) directives = [])
      as ->.
    { clear -Hdir. induction Hdir as [|l ls Hl _ IH]; simpl; [done|].
      by rewrite Hl. }
    assert (List.filter (fun line => negb (DtsFix.isDirective line)) others = others)
      as ->.
    { clear -Hothers. induction Hothers as [|l ls Hl _ IH]; simpl; [done|].
      by rewrite Hl, IH. }
    by rewrite app_nil_r. }
  subst lines. rewrite join_split. unfold DtsFix.replaceFile.
  by rewrite insert_id.
Qed.

(** X23. [fixeDTSfile] rewrites an existing file into one that has one line
    more for each line that held an inline import, and touches no other
    file. *)
Theorem fixeDTSfile_line_count (filePath text : string) (fs : gmap string string) :
  fs !! filePath = Some text ->
  exists text',
    DtsFix.fixeDTSfile filePath fs = DtsFix.FsOk (<[filePath := text']> fs) /\
    length (JsString.split_lines text')
    = (length (JsString.split_lines text)
       + length (List.filter (fun line => negb (DtsFix.isValidLine line))
                   (JsString.split_lines text)))%nat.
Proof.
  intros Hfile. unfold DtsFix.fixeDTSfile, DtsFix.getFileLines. rewrite Hfile.
  set (lines := JsString.split_lines text).
  set (properLines := map DtsFix.fixedOrReturnLine lines).
  set (additionalLines :=
         map DtsFix.getAdditionalLine
           (List.filter (fun line => negb (DtsFix.isValidLine line)) lines)).
  eexists. split; [reflexivity|].
  pose proof (split_lines_newlineFree text) as Hfree. fold lines in Hfree.
  pose proof (mergeLines_perm properLines additionalLines) as Hperm.
  assert (length (DtsFix.mergeLines properLines additionalLines)
          = (length properLines + length additionalLines)%nat) as Hlen
    by (by rewrite Hperm, length_app).
  rewrite split_join.
  - rewrite Hlen. subst properLines additionalLines. by rewrite !length_map.
  - intros Hnil. rewrite Hnil in Hlen. subst properLines. rewrite length_map in Hlen.
    pose proof (split_lines_nonempty text). fold lines in H.
    destruct lines; simpl in *; [done|lia].
  - rewrite Hperm. apply Forall_app. split.
    + subst properLines. apply Forall_fmap.
      eapply Forall_impl; [exact Hfree|]. intros line. apply fixedOrReturnLine_newlineFree.
    + subst additionalLines. apply Forall_fmap. apply Forall_forall.
      intros line Hin. cbv beta delta [compose]. apply getAdditionalLine_newlineFree.
      apply list_elem_of_In, filter_In in Hin as [Hin _].
      rewrite Forall_forall in Hfree. by apply Hfree, list_elem_of_In.
Qed.

Lemma fixeDTSfile_outcome (filePath : string) (fs : gmap string string) :
  match DtsFix.fixeDTSfile filePath fs with
  | DtsFix.FsOk fs' =>
      is_Some (fs !! filePath) /\ dom fs' = dom fs /\
      forall other, other <> filePath -> fs' !! other = fs !! other
  | DtsFix.ENOENT path => path = filePath /\ fs !! filePath = None
  end.
Proof.
  unfold DtsFix.fixeDTSfile, DtsFix.getFileLines, DtsFix.replaceFile.
  destruct (fs !! filePath) as [text|] eqn:Hfile; [|done].
  split_and!; [eauto| |].
  - rewrite dom_insert_L. apply elem_of_dom_2 in Hfile.
    apply subseteq_union_1_L. by apply singleton_subseteq_l.
  - intros other Hne. by rewrite lookup_insert_ne.
Qed.

Lemma fixeDTSfiles_outcome (paths : list string) (fs fs' : gmap string string) r :
  DtsFix.fixeDTSfiles paths fs = (r, fs') ->
  dom fs' = dom fs /\
  (forall other, other ∉ paths -> fs' !! other = fs !! other) /\
  match r with
  | DtsFix.FsOk final => final = fs' /\ Forall (fun path => is_Some (fs !! path)) paths
  | DtsFix.ENOENT path => path ∈ paths /\ fs !! path = None
  end.
Proof.
  revert fs. induction paths as [|path paths IH]; intros fs; simpl.
  - intros [= <- <-]. split_and!; done.
  - pose proof (fixeDTSfile_outcome path fs) as Hone.
    destruct (DtsFix.fixeDTSfile path fs) as [fs1|missing].
    + destruct Hone as (Hsome & Hdom & Hframe). intros H.
      destruct (IH _ H) as (Hdom' & Hframe' & Hr).
      assert (forall p, is_Some (fs1 !! p) <-> is_Some (fs !! p)) as Hsame.
      { intros p. by rewrite <- !elem_of_dom, Hdom. }
      split_and!.
      * by rewrite Hdom'.
      * intros other Hnot. apply not_elem_of_cons in Hnot as [Hne Hnot].
        rewrite Hframe' by done. by apply Hframe.
      * destruct r as [final|missing].
        -- destruct Hr as [-> Hall]. split; [done|]. constructor; [done|].
           eapply Forall_impl; [exact Hall|]. intros p. apply Hsame.
        -- destruct Hr as [Hin Hnone]. split; [by right|].
           apply eq_None_not_Some. rewrite <- Hsame. by apply eq_None_not_Some.
    + destruct Hone as [-> Hnone]. intros [= <- <-].
      split_and!; [done|done|left|done].
Qed.

(** X24. [fixeDTSfilesInDir] creates and deletes no file, and leaves alone
    every file that is not among those it was given to repair.  It ends well
    only if all of these exist, and otherwise stops with the error of one of
    them that does not. *)
Theorem fixeDTSfilesInDir_frame
    (glob_sync : string -> gmap string string -> list string)
    (path_join : string -> string -> string)
    (dtsFolder : string) (fs fs' : gmap string string) r :
  DtsFix.fixeDTSfilesInDir glob_sync path_join dtsFolder fs = (r, fs') ->
  let paths := map (fun file => path_join dtsFolder file) (glob_sync dtsFolder fs) in
  dom fs' = dom fs /\
  (forall other, other ∉ paths -> fs' !! other = fs !! other) /\
  match r with
  | DtsFix.FsOk final => final = fs' /\ Forall (fun path => is_Some (fs !! path)) paths
  | DtsFix.ENOENT path => path ∈ paths /\ fs !! path = None
  end.
Proof. intros H. by apply fixeDTSfiles_outcome. Qed.

(** * The further properties at work on the examples *)

Lemma get_footprint_witness :
  exists r w',
    get Example.scope Example.runtime Example.bare_util Example.w0 = (r, w') /\
    exists evs,
      Forall (fun e => hydration_event e = true) evs /\
      events w' =
        GetModelComponentIfExist (_legacy Example.bare_util) ::
        GetModelComponentIfExist (_legacy (changeScope Example.bare_util "local")) :: evs.
Proof.
  destruct (get Example.scope Example.runtime Example.bare_util Example.w0)
    as [r w'] eqn:H.
  exists r, w'. split; [reflexivity|].
  destruct (get_footprint Example.scope Example.runtime _ _ _ _ H) as (evs & Hall & _ & Hev).
  exists evs. split; [exact Hall | exact Hev].
Defined.

Lemma get_latest_record_missing_witness :
  scope_getModelComponentIfExist Broken.scope (_legacy (Broken.idOf_local "orphan"))
    = Some Broken.orphan /\
  objects Broken.scope (mkRef "gone") = None /\
  get Broken.scope Example.runtime (Broken.idOf_local "orphan") Example.w0 =
    (Thrown (TypeError "Cannot read property 'hash' of null"),
     record (LoadObject (mkRef "gone"))
       (record (GetModelComponentIfExist (_legacy (Broken.idOf_local "orphan")))
          Example.w0)).
Proof.
  split; [reflexivity|]. split; [reflexivity|].
  apply (get_latest_record_missing Broken.scope Example.runtime _ _ Broken.orphan);
    reflexivity.
Defined.

Lemma get_consumer_failure_witness :
  scope_getConsumerComponent Broken.scope (_legacy (Broken.idOf_local "locked"))
    = Thrown (CollaboratorError "locked") /\
  get Broken.scope Example.runtime (Broken.idOf_local "locked") Example.w0 =
    (Thrown (CollaboratorError "locked"),
     record (GetConsumerComponent (_legacy (Broken.idOf_local "locked")))
       (record (LoadObject (mkRef "a1"))
          (record (GetModelComponentIfExist (_legacy (Broken.idOf_local "locked")))
             Example.w0))).
Proof.
  split; [reflexivity|].
  apply (get_consumer_failure Broken.scope Example.runtime _ _ Broken.locked
           (mkRef "a1") Example.util_1_0_0);
    reflexivity.
Defined.

Lemma getTagMap_returns_iff_witness :
  (exists tagMap w',
     getTagMap Example.scope Example.runtime Example.util Example.w0
     = (Returned tagMap, w')) /\
  exists e w',
    getTagMap Broken.scope Example.runtime Broken.legacy Example.w0 = (Thrown e, w') /\
    exists versionStr,
      is_Some (loadable Broken.scope Broken.legacy !! versionStr) /\
      semver_valid Example.runtime versionStr = false /\
      e = TypeError ("Invalid Version: " +:+ versionStr).
Proof.
  split.
  - apply (proj1 (getTagMap_returns_iff Example.scope Example.runtime Example.util
                    Example.w0)).
    exact util_loadable_valid.
  - destruct (getTagMap Broken.scope Example.runtime Broken.legacy Example.w0)
      as [[tagMap|e] w'] eqn:H; [vm_compute in H; discriminate|].
    exists e, w'. split; [reflexivity|].
    exact (proj2 (getTagMap_returns_iff Broken.scope Example.runtime Broken.legacy
                    Example.w0) e w' H).
Defined.

Lemma get_component_from_store_witness :
  exists c w',
    get Example.scope Example.runtime Example.bare_util Example.w0
    = (Returned (Some c), w') /\
    scope_getModelComponentIfExist Example.scope (_legacy (component_id c))
    = Some Example.util /\
    length (tags c) = 1%nat.
Proof.
  destruct (get Example.scope Example.runtime Example.bare_util Example.w0)
    as [[[c|]|e] w'] eqn:H; [|vm_compute in H; discriminate..].
  exists c, w'. split; [reflexivity|].
  destruct (get_component_from_store Example.scope Example.runtime _ _ _ _ H)
    as (modelComponent & ref & version & Hfound & _ & _ & _ & _ & _ & _ & Hlen & _).
  assert (component_id c = changeScope Example.bare_util "local") as Hid
    by (vm_compute in H; by injection H as <- _).
  rewrite Hid in Hfound |- *. split; [reflexivity|].
  rewrite Hlen. vm_compute in Hfound. injection Hfound as <-. reflexivity.
Defined.

Lemma get_head_is_tagged_witness :
  exists c w' entry,
    get Example.scope Example.runtime Example.bare_util Example.w0
    = (Returned (Some c), w') /\
    entry ∈ tags c /\ tag_snap entry.2 = head c.
Proof.
  destruct (get Example.scope Example.runtime Example.bare_util Example.w0)
    as [[[c|]|e] w'] eqn:H; [|vm_compute in H; discriminate..].
  destruct (get_head_is_tagged Example.scope Example.runtime _ _ _ _ H)
    as (modelComponent & entry & _ & Hin & _ & _ & Hsnap).
  exists c, w', entry. split; [reflexivity|]. split; [exact Hin | exact Hsnap].
Defined.

(** The example store keeps every record under its own hash. *)
Lemma example_store_content_addressed ref version :
  objects Example.scope ref = Some version -> version_hash version = ref.
Proof.
  destruct ref as [h]. simpl.
  destruct (String.eqb_spec h "a1") as [->|_]; [by intros [= <-]|].
  destruct (String.eqb_spec h "b2") as [->|_]; [by intros [= <-]|]. discriminate.
Qed.

Lemma getState_of_head_witness :
  exists c w',
    get Example.scope Example.runtime Example.bare_util Example.w0
    = (Returned (Some c), w') /\
    snap_hash (head c) = "a1" /\
    exists w2,
      getState (Capsule := Example.Capsule) Example.scope (component_id c) "a1" Example.w0
      = (Returned (state c), w2).
Proof.
  destruct (get Example.scope Example.runtime Example.bare_util Example.w0)
    as [[[c|]|e] w'] eqn:H; [|vm_compute in H; discriminate..].
  assert (snap_hash (head c) = "a1") as Hhash
    by (vm_compute in H; by injection H as <- _).
  exists c, w'. split; [reflexivity|]. split; [exact Hhash|].
  eexists. rewrite <- Hhash.
  exact (getState_of_head Example.scope Example.runtime _ _ _ Example.w0 _
           example_store_content_addressed H).
Defined.

Lemma getOrThrow_Thrown_iff_witness :
  exists w',
    get Example.scope Example.runtime Example.ghost Example.w0 = (Returned None, w') /\
    getOrThrow Example.scope Example.runtime Example.ghost Example.w0
    = (Thrown (ComponentNotFound Example.ghost), w').
Proof.
  destruct (get Example.scope Example.runtime Example.ghost Example.w0)
    as [[[c|]|e] w'] eqn:H; [vm_compute in H; discriminate| |vm_compute in H; discriminate].
  exists w'. split; [reflexivity|].
  apply (getOrThrow_Thrown_iff Example.scope Example.runtime). right. by split.
Defined.

Lemma list_bounded_witness :
  length (listing Example.scope true) = 2%nat /\
  exists cs w',
    list_ Example.scope Example.runtime (Some (mkFilter (-1) 1)) true Example.w0
    = (Returned cs, w') /\
    Z.of_nat (length cs) <= 1 /\
    (length cs <= length (Lodash.slice (listing Example.scope true) (-1) (-1 + 1)))%nat.
Proof.
  split; [reflexivity|].
  destruct (list_ Example.scope Example.runtime (Some (mkFilter (-1) 1)) true Example.w0)
    as [[cs|e] w'] eqn:H; [|vm_compute in H; discriminate].
  exists cs, w'. split; [reflexivity|].
  destruct (list_bounded Example.scope Example.runtime _ _ _ _ _ H) as (Hpage & Hlimit & _).
  split.
  - apply (Hlimit (mkFilter (-1) 1)); [reflexivity | simpl; lia].
  - apply (Hpage (mkFilter (-1) 1)); [reflexivity | simpl; lia].
Defined.

Lemma createSnapFromVersion_author_not_empty_witness :
  username (log Broken.blank_3_0_0) = Some EmptyString /\
  email (log Broken.blank_3_0_0) = Some EmptyString /\
  author (createSnapFromVersion Example.runtime Broken.blank_3_0_0)
  = author (createSnapFromVersion Example.runtime Example.util_1_0_0) /\
  username (log Example.shared_2_0_0)
  = Some (displayName (author (createSnapFromVersion Example.runtime Example.shared_2_0_0))) /\
  email (log Example.shared_2_0_0)
  = Some (author_email (author (createSnapFromVersion Example.runtime Example.shared_2_0_0))).
Proof.
  destruct (createSnapFromVersion_author_not_empty Example.runtime Broken.blank_3_0_0)
    as (_ & _ & Hname & Hmail & _).
  destruct (createSnapFromVersion_author_not_empty Example.runtime Example.shared_2_0_0)
    as (_ & _ & _ & _ & Hkept & Hkept').
  split_and!; [reflexivity | reflexivity | | |].
  - pose proof (Hname eq_refl) as Hn. pose proof (Hmail eq_refl) as Hm.
    destruct (author (createSnapFromVersion Example.runtime Broken.blank_3_0_0)) as [n m].
    simpl in Hn, Hm. by subst.
  - apply Hkept. discriminate.
  - apply Hkept'. discriminate.
Defined.

Lemma list_ids_from_store_witness :
  exists cs w',
    list_ Example.scope Example.runtime None true Example.w0 = (Returned cs, w') /\
    Forall
      (fun c => exists modelComponent,
         modelComponent ∈ scope_list Example.scope /\
         bid_version (_legacy (component_id c)) = Some (latest modelComponent))
      cs.
Proof.
  destruct (list_ Example.scope Example.runtime None true Example.w0)
    as [[cs|e] w'] eqn:H; [|vm_compute in H; discriminate].
  exists cs, w'. split; [reflexivity|].
  eapply Forall_impl;
    [exact (list_ids_from_store Example.scope Example.runtime _ _ _ _ _ H)|].
  intros c (modelComponent & Hin & _ & Hversion & _).
  exists modelComponent. split; [exact Hin | exact Hversion].
Defined.

Lemma list_negative_offset_witness :
  list_ Example.scope Example.runtime (Some (mkFilter (-1) 1)) true Example.w0
  = (Returned [], record ListModelComponents Example.w0) /\
  list_ Example.scope Example.runtime (Some (mkFilter (-2) 1)) true Example.w0
  = getMany Example.scope Example.runtime [Some (idOf Example.util)]
      (record ListModelComponents Example.w0).
Proof.
  split.
  - apply (proj2 (list_negative_offset Example.scope Example.runtime (mkFilter (-1) 1)
                    true Example.w0 ltac:(simpl; lia) ltac:(simpl; lia)));
      simpl; lia.
  - apply (proj1 (list_negative_offset Example.scope Example.runtime (mkFilter (-2) 1)
                    true Example.w0 ltac:(simpl; lia) ltac:(simpl; lia)));
      simpl; lia.
Defined.

Lemma loadExtensions_failures_witness :
  exists w',
    loadExtensions Example.scope Broken.offline
      (mkExtensionDataList [_legacy Example.bare_util]) Example.w0
    = (Thrown (CollaboratorError "no capsule"), w') /\
    forall requireables, LoadRequireableExtensions requireables ∉ events w'.
Proof.
  set (extensions := mkExtensionDataList [_legacy Example.bare_util]).
  destruct (mapSeries (get Example.scope Broken.offline)
              (map fromLegacy (extensionsBitIds extensions)) Example.w0)
    as [[rs|e] w1] eqn:H; [|vm_compute in H; discriminate].
  pose proof H as Hrs. apply mapSeries_Returned_iff in Hrs.
  destruct (loadExtensions_failures Example.scope Broken.offline extensions Example.w0
              ltac:(discriminate)) as (_ & Hiso & _).
  eexists. split; [exact (Hiso rs w1 _ Hrs eq_refl)|].
  vm_compute in H. injection H as <- <-. intros requireables Hin.
  repeat (apply elem_of_cons in Hin as [Hin|Hin]; [discriminate|]).
  by apply elem_of_nil in Hin.
Defined.

Lemma fixedOrReturnLine_inline_import_witness :
  JsString.includes "  run(): " DtsFix.import_open = false /\
  DtsFix.fixedOrReturnLine DtsFix.inline_line = "  run(): Promise<void>;" /\
  DtsFix.getLibName DtsFix.inline_line = "bluebird".
Proof.
  destruct (fixedOrReturnLine_inline_import "  run(): " "bluebird" "Promise<void>;"
              eq_refl eq_refl) as (Hfixed & _ & Hlib & _).
  split; [reflexivity|]. split; [exact Hfixed | exact Hlib].
Defined.

Lemma getAdditionalLine_inline_import_witness :
  JsString.firstNonAlpha "Promise" = None /\
  JsString.isAlpha "<" = false /\
  DtsFix.getExportName DtsFix.inline_line = "Promise" /\
  DtsFix.getAdditionalLine DtsFix.inline_line = "import { Promise } from 'bluebird';".
Proof.
  split; [reflexivity|]. split; [reflexivity|].
  exact (getAdditionalLine_inline_import "  run(): " "bluebird" "Promise" "void>;" "<"
           eq_refl eq_refl eq_refl eq_refl).
Defined.

Lemma getExportName_end_of_line_witness :
  DtsFix.getExportName
    ("type P = import(" +:+ JsString.dquote +:+ "bluebird" +:+ JsString.dquote +:+ ").Promise")
  = "." /\
  DtsFix.getAdditionalLine
    ("type P = import(" +:+ JsString.dquote +:+ "bluebird" +:+ JsString.dquote +:+ ").Promise")
  = "import { . } from 'bluebird';".
Proof.
  exact (getExportName_end_of_line "type P = " "bluebird" "Promise"
           eq_refl eq_refl eq_refl).
Defined.

Lemma fixedOrReturnLine_shrinks_witness :
  DtsFix.isValidLine "export declare class Scope {" = true /\
  DtsFix.fixedOrReturnLine "export declare class Scope {" = "export declare class Scope {" /\
  (String.length (DtsFix.fixedOrReturnLine DtsFix.inline_line)
   <= String.length DtsFix.inline_line)%nat.
Proof.
  split; [reflexivity|]. split.
  - apply (fixedOrReturnLine_shrinks "export declare class Scope {"). reflexivity.
  - apply (fixedOrReturnLine_shrinks DtsFix.inline_line).
Defined.

Lemma fixeDTSfile_clean_file_witness :
  DtsFix.disk !! "types/clean.d.ts" = Some DtsFix.clean_text /\
  length (JsString.split_lines DtsFix.clean_text) = 3%nat /\
  DtsFix.fixeDTSfile "types/clean.d.ts" DtsFix.disk = DtsFix.FsOk DtsFix.disk.
Proof.
  split; [reflexivity|]. split; [reflexivity|].
  apply (fixeDTSfile_clean_file "types/clean.d.ts" DtsFix.clean_text DtsFix.disk
           (firstn 1 (JsString.split_lines DtsFix.clean_text))
           (skipn 1 (JsString.split_lines DtsFix.clean_text)));
    [reflexivity | reflexivity | | |]; vm_compute; repeat constructor.
Defined.

Lemma fixeDTSfile_line_count_witness :
  DtsFix.disk !! "types/dirty.d.ts" = Some DtsFix.dirty_text /\
  length (JsString.split_lines DtsFix.dirty_text) = 3%nat /\
  exists text',
    DtsFix.fixeDTSfile "types/dirty.d.ts" DtsFix.disk
    = DtsFix.FsOk (<["types/dirty.d.ts" := text']> DtsFix.disk) /\
    length (JsString.split_lines text') = 4%nat.
Proof.
  split; [reflexivity|]. split; [reflexivity|].
  destruct (fixeDTSfile_line_count "types/dirty.d.ts" DtsFix.dirty_text DtsFix.disk
              eq_refl) as (text' & Hrun & Hlen).
  exists text'. split; [exact Hrun|]. rewrite Hlen. reflexivity.
Defined.

Lemma fixeDTSfilesInDir_frame_witness :
  exists r fs',
    DtsFix.fixeDTSfilesInDir
      (fun _ _ => ["clean.d.ts"; "dirty.d.ts"; "lost.d.ts"])
      (fun folder file => folder +:+ "/" +:+ file) "types" DtsFix.disk = (r, fs') /\
    r = DtsFix.ENOENT "types/lost.d.ts" /\
    dom fs' = dom DtsFix.disk.
Proof.
  destruct (DtsFix.fixeDTSfilesInDir
              (fun _ _ => ["clean.d.ts"; "dirty.d.ts"; "lost.d.ts"])
              (fun folder file => folder +:+ "/" +:+ file) "types" DtsFix.disk)
    as [r fs'] eqn:H.
  destruct (fixeDTSfilesInDir_frame _ _ _ _ _ _ H) as (Hdom & _ & Hr).
  exists r, fs'. split; [reflexivity|]. split; [|exact Hdom].
  destruct r as [final|path].
  - destruct Hr as [_ Hall]. simpl in Hall.
    inversion Hall as [|? ? _ Hall1]; subst.
    inversion Hall1 as [|? ? _ Hall2]; subst.
    inversion Hall2 as [|? ? [text Hlost] _]; subst.
    vm_compute in Hlost. discriminate.
  - destruct Hr as [Hin Hnone]. simpl in Hin.
    apply elem_of_cons in Hin as [->|Hin]; [vm_compute in Hnone; discriminate|].
    apply elem_of_cons in Hin as [->|Hin]; [vm_compute in Hnone; discriminate|].
    apply elem_of_cons in Hin as [->|Hin]; [reflexivity|].
    by apply elem_of_nil in Hin.
Defined.
